(** * TapTap StemStation chart tools: a shallow embedding and its properties

    The development follows the two Python tools of the repository:

    - [tools/build_stemstation_chart.py]: lane mapping by fixed pitch buckets,
      grid quantisation, difficulty thinning and the multi-stem chart
      document (module [BuildChart]);
    - [tools/transcribe-basicpitch.py]: the linear lane mapping and the
      tap/hold classification of the single-stream chart (module
      [Transcribe]).

    Numbers.  Python [int] is [Z].  Python [float] is IEEE binary64, Rocq's
    primitive [float]; module [Float64] has the operations of the
    interpreter on it ([round] and the conversion from [int], with the
    exceptions they raise).  Module [IEEE] has the thinning and the
    quantisation of the chart builder on binary64 numbers, and the
    transcription tool (module [Transcribe]) works on them throughout.
    Module [BuildChart] is the chart builder in exact arithmetic: its
    numbers are the exact values of the doubles ([Q]), and its operations do
    not round, overflow or produce a NaN.  Properties that rest on the order
    of the numbers and on the shape of the data are proved there; properties
    that speak about the rounded values themselves are proved in [IEEE].

    Exceptions are values of [result]; a [Raise] that reaches the top of the
    program is an uncaught exception and the interpreter exits with status 1. *)

From Stdlib Require Import ZArith QArith Qround Lia Lqa String Ascii Floats.
From stdpp Require Import gmap strings list.

Open Scope Z_scope.

#[local] Set Warnings "-clear-no-such-hyp".

(** ** Python runtime: exceptions, [round], float division *)

Module Py.

Inductive exn : Type :=
  | ZeroDivisionError
  | FileNotFoundError
  | DecodeError
  | OverflowError
  | ValueError.

Inductive result (A : Type) : Type :=
  | Ok (a : A)
  | Raise (e : exn).
Arguments Ok {A} a.
Arguments Raise {A} e.

#[export] Instance result_ret : MRet result := fun A a => Ok a.

#[export] Instance result_fmap : FMap result := fun A B f r =>
  match r with
  | Ok a => Ok (f a)
  | Raise e => Raise e
  end.

(** Sequencing: the first exception raised ends the computation. *)
#[export] Instance result_bind : MBind result := fun A B k r =>
  match r with
  | Ok a => k a
  | Raise e => Raise e
  end.

(** [round(x)]: nearest integer, ties to the even one. *)
Definition round (x : Q) : Z :=
  let f := Qfloor x in
  match Qcompare (x - inject_Z f) (1 # 2) with
  | Lt => f
  | Gt => f + 1
  | Eq => if Z.even f then f else f + 1
  end.

(** [x / y] on floats. *)
Definition truediv (x y : Q) : result Q :=
  if Qeq_bool y 0 then Raise ZeroDivisionError else Ok (x / y)%Q.

#[export] Instance Qeq_decision (x y : Q) : Decision (x == y)%Q := Qeq_dec x y.

(** [x < y] on floats. *)
Definition lt (x y : Q) : bool := negb (Qle_bool y x).

(** [s.replace(a, b)] for one-character [a] and [b]. *)
Fixpoint replace_char (a b : ascii) (s : string) : string :=
  match s with
  | EmptyString => EmptyString
  | String c r =>
      String (if Ascii.eqb c a then b else c) (replace_char a b r)
  end.

Definition backslash : ascii := "092".

(** [l.sort(key=...)]: a stable sort; [leb x y] is [key x <= key y].  Each
    element is inserted behind the elements whose key is not larger. *)
Fixpoint insert_sorted {A : Type} (leb : A -> A -> bool) (x : A) (l : list A)
  : list A :=
  match l with
  | [] => [x]
  | y :: r => if leb y x then y :: insert_sorted leb x r else x :: y :: r
  end.

Definition sort {A : Type} (leb : A -> A -> bool) (l : list A) : list A :=
  fold_left (fun acc x => insert_sorted leb x acc) l [].

(** Sorted for [leb]: every element is below all later ones. *)
Fixpoint sorted_by {A : Type} (leb : A -> A -> bool) (l : list A) : Prop :=
  match l with
  | [] => True
  | a :: rest => Forall (fun b => leb a b = true) rest /\ sorted_by leb rest
  end.

(** [x] and [c] have equal sort keys. *)
Definition same_key {A : Type} (leb : A -> A -> bool) (c x : A) : bool :=
  leb x c && leb c x.

(** Exit status of the interpreter after running the script body. *)
Definition exit_status {A : Type} (r : result A) : Z :=
  match r with
  | Ok _ => 0
  | Raise _ => 1
  end.

End Py.

(** ** Python floats: IEEE binary64 *)

Module Float64.

Import Py.

(** The exact value of a finite double. *)
Definition value (x : float) : Q :=
  match Prim2SF x with
  | S754_finite s m e =>
      let magnitude :=
        if 0 <=? e then inject_Z (Z.pos m * 2 ^ e)
        else Z.pos m # Z.to_pos (2 ^ (- e)) in
      if s then (- magnitude)%Q else magnitude
  | _ => 0%Q
  end.

(** [round(x)] on a float: the nearest integer to the exact value, ties to
    the even one; infinities and NaN have no integer. *)
Definition round (x : float) : result Z :=
  match Prim2SF x with
  | S754_nan => Raise ValueError
  | S754_infinity _ => Raise OverflowError
  | _ => Ok (Py.round (value x))
  end.

(** The conversion of an [int] operand of a float operation: the nearest
    double, if there is a finite one. *)
Definition of_int (k : Z) : result float :=
  let x := SF2Prim (binary_normalize prec emax k 0 false) in
  if is_infinity x then Raise OverflowError else Ok x.

(** Truth value of a float: everything but zero. *)
Definition truthy (x : float) : bool := negb (x =? 0)%float.

End Float64.

(** ** The MIDI collaborator

    [pretty_midi] is outside the repository.  A decoded file is the list of
    its instruments, each with its notes ([start] and [end] in seconds, as
    doubles); [estimate_tempo()] is what the library's call gives, a tempo
    or an exception.  [PrettyMIDI(path)] reads the file at [path]: it raises
    when there is none, or when the content is not MIDI. *)

Module PrettyMidi.

Import Py.

Record Note : Type := mkNote {
  start : float;
  end_ : float;
  pitch : Z;
}.

Record Instrument : Type := mkInstrument {
  notes : list Note;
}.

Record PrettyMIDI : Type := mkPrettyMIDI {
  instruments : list Instrument;
  estimate_tempo : result float;
}.

Inductive file : Type :=
  | Midi (pm : PrettyMIDI)
  | NotMidi.

Definition open {Path : Type} (fs : Path -> option file) (path : Path)
  : result PrettyMIDI :=
  match fs path with
  | None => Raise FileNotFoundError
  | Some NotMidi => Raise DecodeError
  | Some (Midi pm) => Ok pm
  end.

End PrettyMidi.

(** ** tools/build_stemstation_chart.py *)

Module BuildChart.

Import Py.

(** The three values of the type [Difficulty] of the source. *)
Inductive Difficulty : Type := easy | normal | expert.

#[export] Instance Difficulty_eq_dec : EqDecision Difficulty.
Proof. solve_decision. Defined.

Record NoteEvent : Type := mkNoteEvent {
  time_ms : Q;
  duration_ms : Q;
  pitch : Z;
  lane : Z;
}.

(** [NoteEvent.to_dict]: the JSON note, all four entries integers. *)
Record NoteDict : Type := mkNoteDict {
  timeMs : Z;
  durationMs : Z;
  nd_pitch : Z;
  nd_lane : Z;
}.

Definition to_dict (n : NoteEvent) : NoteDict :=
  {| timeMs := round (time_ms n);
     durationMs := round (duration_ms n);
     nd_pitch := pitch n;
     nd_lane := lane n |}.

Definition map_pitch_to_lane (pitch : Z) : Z :=
  if pitch <? 50 then 0
  else if pitch <? 60 then 1
  else if pitch <? 72 then 2
  else 3.

(** Default spacings of [thin_notes_for_difficulty], and the value
    [last_time_by_lane.get(lane, -1e9)] falls back to. *)
Definition default_spacing_easy : Q := 260.
Definition default_spacing_normal : Q := 160.
Definition default_spacing_expert : Q := 80.
Definition no_last_time : Q := - (1000000000 # 1).

Definition min_gap_of (difficulty : Difficulty)
    (min_spacing_ms_easy min_spacing_ms_normal min_spacing_ms_expert : Q) : Q :=
  match difficulty with
  | expert => min_spacing_ms_expert
  | normal => min_spacing_ms_normal
  | easy => min_spacing_ms_easy
  end.

(** [difficulty in ("easy", "normal")] *)
Definition drops_on_violation (difficulty : Difficulty) : bool :=
  bool_decide (difficulty = easy \/ difficulty = normal).

(** The [for note in notes] loop; [out] and [last_time_by_lane] are the two
    mutable locals. *)
Fixpoint thin_loop (difficulty : Difficulty) (min_gap : Q)
    (notes out : list NoteEvent) (last_time_by_lane : gmap Z Q)
  : list NoteEvent :=
  match notes with
  | [] => out
  | note :: rest =>
      let last_time := default no_last_time (last_time_by_lane !! lane note) in
      if lt (time_ms note - last_time) min_gap
         && drops_on_violation difficulty
      then thin_loop difficulty min_gap rest out last_time_by_lane
      else thin_loop difficulty min_gap rest (out ++ [note])
             (<[lane note := time_ms note]> last_time_by_lane)
  end.

Definition thin_notes_for_difficulty (notes : list NoteEvent)
    (difficulty : Difficulty)
    (min_spacing_ms_easy min_spacing_ms_normal min_spacing_ms_expert : Q)
  : list NoteEvent :=
  let min_gap := min_gap_of difficulty min_spacing_ms_easy
                   min_spacing_ms_normal min_spacing_ms_expert in
  thin_loop difficulty min_gap notes [] ∅.

(** The body of the quantisation loop: [n.time_ms] is overwritten, the other
    attributes stay.  [round] gives an [int], which the product with the
    float [grid_ms] turns back into a float. *)
Definition quantize_note (grid_ms : Q) (n : NoteEvent) : result NoteEvent :=
  q ← truediv (time_ms n) grid_ms;
  Ok {| time_ms := (inject_Z (round q) * grid_ms)%Q;
        duration_ms := duration_ms n;
        pitch := pitch n;
        lane := lane n |}.

(** The list is updated in place and returned; the value returned is the
    state of the list after the loop.  An exception leaves the loop at the
    first note, when [grid_ms] is zero. *)
Fixpoint quantize_notes_to_grid (notes : list NoteEvent) (grid_ms : Q)
  : result (list NoteEvent) :=
  match notes with
  | [] => Ok []
  | n :: rest =>
      n' ← quantize_note grid_ms n;
      rest' ← quantize_notes_to_grid rest grid_ms;
      Ok (n' :: rest')
  end.

(** A note after its iteration of the quantisation loop, when the division
    by the grid is defined. *)
Definition quantized_note (g : Q) (n : NoteEvent) : NoteEvent :=
  {| time_ms := (inject_Z (round (time_ms n / g)) * g)%Q;
     duration_ms := duration_ms n;
     pitch := pitch n;
     lane := lane n |}.

(** The notes of a sequence that lie on lane [k]. *)
Definition on_lane (k : Z) (notes : list NoteEvent) : list NoteEvent :=
  filter (fun n => lane n = k) notes.

(** Sorted by [time_ms] ascending. *)
Fixpoint time_sorted (notes : list NoteEvent) : Prop :=
  match notes with
  | [] => True
  | a :: rest =>
      Forall (fun b => (time_ms a <= time_ms b)%Q) rest /\ time_sorted rest
  end.

(** [events.sort(key=lambda e: e.time_ms)] *)
Definition time_leb (a b : NoteEvent) : bool :=
  Qle_bool (time_ms a) (time_ms b).

Definition note_event (n : PrettyMidi.Note) : NoteEvent :=
  {| time_ms := (Float64.value (PrettyMidi.start n) * 1000)%Q;
     duration_ms :=
       ((Float64.value (PrettyMidi.end_ n)
         - Float64.value (PrettyMidi.start n)) * 1000)%Q;
     pitch := PrettyMidi.pitch n;
     lane := map_pitch_to_lane (PrettyMidi.pitch n) |}.

Record StemDifficulties : Type := mkStemDifficulties {
  easy_notes : list NoteDict;
  normal_notes : list NoteDict;
  expert_notes : list NoteDict;
}.

Record StemEntry : Type := mkStemEntry {
  midiFile : string;
  difficulties : StemDifficulties;
}.

Record Chart : Type := mkChart {
  trackId : string;
  songName : string;
  artist : string;
  bpm : Q;
  audioOffsetMs : Z;
  stems : gmap string StemEntry;
}.

(** The three stems, in the order of the loop. *)
Definition stem_names : list string := ["melody"; "drums"; "vocals"]%string.

Section Files.

(** [pathlib] and the file system are outside the repository: [joinpath] is
    [dir / name], [str] is [str(path)], and [fs path] is the file at [path],
    if there is one. *)
Variable Path : Type.
Variable joinpath : Path -> string -> Path.
Variable str : Path -> string.
Variable fs : Path -> option PrettyMidi.file.

Definition path_exists (path : Path) : bool :=
  match fs path with
  | Some _ => true
  | None => false
  end.

Definition load_midi_notes (path : Path) : result (list NoteEvent) :=
  pm ← PrettyMidi.open fs path;
  let events :=
    flat_map (fun inst => map note_event (PrettyMidi.notes inst))
             (PrettyMidi.instruments pm) in
  Ok (sort time_leb events).

Section Song.

Variable track_id song_name artist_name : string.
Variable bpm_arg : Q.
Variable midi_dir : Path.

Definition song_slug : string := replace_char " " "_" song_name.

Definition midi_path (stem : string) : Path :=
  joinpath midi_dir (song_slug ++ "_" ++ stem ++ ".mid")%string.

(** The body of the loop over the stems; the value is the [stems] dictionary
    after the iteration. *)
Definition build_stem (stems : gmap string StemEntry) (stem_name : string)
  : result (gmap string StemEntry) :=
  let path := midi_path stem_name in
  if negb (path_exists path) then Ok stems
  else
    all_notes ← load_midi_notes path;
    beat_ms ← truediv 60000 bpm_arg;
    let grid_ms := (beat_ms / 4)%Q in
    quantized ← quantize_notes_to_grid all_notes grid_ms;
    let expert_notes :=
      thin_notes_for_difficulty quantized expert
        default_spacing_easy default_spacing_normal 80 in
    let normal_notes :=
      thin_notes_for_difficulty quantized normal
        default_spacing_easy 150 default_spacing_expert in
    let easy_notes :=
      thin_notes_for_difficulty quantized easy
        260 default_spacing_normal default_spacing_expert in
    Ok (<[stem_name :=
           {| midiFile := replace_char backslash "/" (str path);
              difficulties :=
                {| easy_notes := map to_dict easy_notes;
                   normal_notes := map to_dict normal_notes;
                   expert_notes := map to_dict expert_notes |} |}]> stems).

Fixpoint build_stems (names : list string) (stems : gmap string StemEntry)
  : result (gmap string StemEntry) :=
  match names with
  | [] => Ok stems
  | stem_name :: rest =>
      stems' ← build_stem stems stem_name;
      build_stems rest stems'
  end.

(** [Ok chart]: the function reached [json.dump(chart, f)] and the document
    at [output_path] is [chart].  [Raise e]: the exception [e] left the
    function before [output_path] was opened; nothing has been written. *)
Definition build_chart_for_song : result Chart :=
  stems ← build_stems stem_names ∅;
  Ok {| trackId := track_id;
        songName := song_name;
        artist := artist_name;
        bpm := bpm_arg;
        audioOffsetMs := 0;
        stems := stems |}.

End Song.

End Files.

(** The events of a decoded file before they are sorted: instrument by
    instrument, note by note. *)
Definition file_events (pm : PrettyMidi.PrettyMIDI) : list NoteEvent :=
  flat_map (fun inst => map note_event (PrettyMidi.notes inst))
           (PrettyMidi.instruments pm).

(** The value stored for a stem whose file has the name [file_name] and
    whose quantised events are [quantized]. *)
Definition stem_entry (file_name : string) (quantized : list NoteEvent)
  : StemEntry :=
  {| midiFile := replace_char backslash "/" file_name;
     difficulties :=
       {| easy_notes :=
            map to_dict (thin_notes_for_difficulty quantized easy
                           260 default_spacing_normal default_spacing_expert);
          normal_notes :=
            map to_dict (thin_notes_for_difficulty quantized normal
                           default_spacing_easy 150 default_spacing_expert);
          expert_notes :=
            map to_dict (thin_notes_for_difficulty quantized expert
                           default_spacing_easy default_spacing_normal 80) |} |}.

(** The entry a present, decodable stem gets at a non-zero tempo: its
    events sorted, quantised on the sixteenth-note grid and thinned. *)
Definition stem_entry_of (Path : Type) (joinpath : Path -> string -> Path)
    (str : Path -> string) (song_name : string) (bpm_arg : Q) (midi_dir : Path)
    (stem : string) (pm : PrettyMidi.PrettyMIDI) : StemEntry :=
  stem_entry (str (midi_path Path joinpath song_name midi_dir stem))
    (map (quantized_note (60000 / bpm_arg / 4))
         (sort time_leb (file_events pm))).

(** The [timeMs] of a list of JSON notes never decrease. *)
Definition ascending (l : list NoteDict) : Prop :=
  forall (i j : nat) (a b : NoteDict),
    (i <= j)%nat -> l !! i = Some a -> l !! j = Some b -> timeMs a <= timeMs b.

(** The three note lists of a stem entry. *)
Definition tiers (entry : StemEntry) : list (list NoteDict) :=
  [ easy_notes (difficulties entry);
    normal_notes (difficulties entry);
    expert_notes (difficulties entry) ].

(** Two notes that differ at most in how their times are written. *)
Definition same_note (n n' : NoteEvent) : Prop :=
  (time_ms n == time_ms n')%Q /\ duration_ms n = duration_ms n' /\
  pitch n = pitch n' /\ lane n = lane n'.

(** The note lists of a stem entry grow with the difficulty. *)
Definition tiers_ordered (entry : StemEntry) : Prop :=
  (length (easy_notes (difficulties entry)) <=
   length (normal_notes (difficulties entry)))%nat /\
  (length (normal_notes (difficulties entry)) <=
   length (expert_notes (difficulties entry)))%nat.

End BuildChart.

(** ** tools/build_stemstation_chart.py on binary64 numbers

    Thinning and quantisation as the interpreter runs them: the subtraction,
    the division and the product round to the nearest double. *)

Module IEEE.

Import Py BuildChart(Difficulty, easy, normal, expert, drops_on_violation).

Record NoteEvent : Type := mkNoteEvent {
  time_ms : float;
  duration_ms : float;
  pitch : Z;
  lane : Z;
}.

(** [-1e9] *)
Definition no_last_time : float := (-1000000000)%float.

Definition min_gap_of (difficulty : Difficulty)
    (min_spacing_ms_easy min_spacing_ms_normal min_spacing_ms_expert : float)
  : float :=
  match difficulty with
  | expert => min_spacing_ms_expert
  | normal => min_spacing_ms_normal
  | easy => min_spacing_ms_easy
  end.

Fixpoint thin_loop (difficulty : Difficulty) (min_gap : float)
    (notes out : list NoteEvent) (last_time_by_lane : gmap Z float)
  : list NoteEvent :=
  match notes with
  | [] => out
  | note :: rest =>
      let last_time := default no_last_time (last_time_by_lane !! lane note) in
      if (time_ms note - last_time <? min_gap)%float
         && drops_on_violation difficulty
      then thin_loop difficulty min_gap rest out last_time_by_lane
      else thin_loop difficulty min_gap rest (out ++ [note])
             (<[lane note := time_ms note]> last_time_by_lane)
  end.

Definition thin_notes_for_difficulty (notes : list NoteEvent)
    (difficulty : Difficulty)
    (min_spacing_ms_easy min_spacing_ms_normal min_spacing_ms_expert : float)
  : list NoteEvent :=
  let min_gap := min_gap_of difficulty min_spacing_ms_easy
                   min_spacing_ms_normal min_spacing_ms_expert in
  thin_loop difficulty min_gap notes [] ∅.

(** The body of the quantisation loop.  The times are the loader's, numpy
    doubles: their quotient by the grid never raises, and by a zero grid it
    is an infinity or a NaN, which [round] rejects.  (A time that is a plain
    Python float raises [ZeroDivisionError] on a zero grid instead; with any
    other grid the two agree.)  The quotient is rounded to an [int], which
    the product with the float [grid_ms] converts back. *)
Definition quantize_note (grid_ms : float) (n : NoteEvent) : result NoteEvent :=
  let q := (time_ms n / grid_ms)%float in
  k ← Float64.round q;
  kf ← Float64.of_int k;
  Ok {| time_ms := (kf * grid_ms)%float;
        duration_ms := duration_ms n;
        pitch := pitch n;
        lane := lane n |}.

Fixpoint quantize_notes_to_grid (notes : list NoteEvent) (grid_ms : float)
  : result (list NoteEvent) :=
  match notes with
  | [] => Ok []
  | n :: rest =>
      n' ← quantize_note grid_ms n;
      rest' ← quantize_notes_to_grid rest grid_ms;
      Ok (n' :: rest')
  end.

(** The notes of a sequence that lie on lane [k]. *)
Definition on_lane (k : Z) (notes : list NoteEvent) : list NoteEvent :=
  filter (fun n => lane n = k) notes.

(** The time a new note on lane [k] is compared with, after the notes
    [kept] have been kept: the time of the last kept note of the lane, or
    [initial] when there is none. *)
Definition last_kept_time (initial : float) (k : Z) (kept : list NoteEvent)
  : float :=
  default initial (time_ms <$> last (on_lane k kept)).

(** For neighbours [a], [b] in a sequence the test
    [b.time_ms - a.time_ms < gap] of the loop is false. *)
Fixpoint gap_spaced (gap : float) (notes : list NoteEvent) : Prop :=
  match notes with
  | [] => True
  | a :: rest =>
      match rest with
      | [] => True
      | b :: _ => (time_ms b - time_ms a <? gap)%float = false
      end /\ gap_spaced gap rest
  end.

End IEEE.

(** ** tools/transcribe-basicpitch.py *)

Module Transcribe.

Import Py.

(** [//] is floor division, which is [Z.div] for the positive divisor 12. *)
Definition lane_for_midi (midi_note : Z) : Z :=
  Z.max 0 (Z.min 3 ((midi_note - 36) / 12)).

(** The values that occur in a note dictionary. *)
Inductive value : Type :=
  | Int (z : Z)
  | Str (s : string).

(** [int(round(n.start * 1000)) + offset_ms]: the product is a double, and
    [round] raises on an infinity or a NaN. *)
Definition start_ms (n : PrettyMidi.Note) (offset_ms : Z) : result Z :=
  ms ← Float64.round (PrettyMidi.start n * 1000)%float;
  Ok (ms + offset_ms).

Definition end_ms (n : PrettyMidi.Note) (offset_ms : Z) : result Z :=
  ms ← Float64.round (PrettyMidi.end_ n * 1000)%float;
  Ok (ms + offset_ms).

(** The body of the loop over the notes: the dictionary appended to
    [notes]. *)
Definition chart_note (n : PrettyMidi.Note) (offset_ms : Z)
  : result (gmap string value) :=
  startMs ← start_ms n offset_ms;
  endMs ← end_ms n offset_ms;
  let lane := lane_for_midi (PrettyMidi.pitch n) in
  Ok (if 350 <=? endMs - startMs then
        list_to_map [("timeMs", Int startMs);
                     ("lane", Int lane);
                     ("type", Str "hold");
                     ("endTimeMs", Int endMs)]%string
      else
        list_to_map [("timeMs", Int startMs);
                     ("lane", Int lane);
                     ("type", Str "tap")]%string).

(** The dictionary [chart_note] returns for a lane and two times. *)
Definition note_dict (lane startMs endMs : Z) : gmap string value :=
  if 350 <=? endMs - startMs then
    list_to_map [("timeMs", Int startMs);
                 ("lane", Int lane);
                 ("type", Str "hold");
                 ("endTimeMs", Int endMs)]%string
  else
    list_to_map [("timeMs", Int startMs);
                 ("lane", Int lane);
                 ("type", Str "tap")]%string.

(** The loop over a sequence of notes; the first exception ends it. *)
Fixpoint chart_notes (ns : list PrettyMidi.Note) (offset_ms : Z)
  : result (list (gmap string value)) :=
  match ns with
  | [] => Ok []
  | n :: rest =>
      d ← chart_note n offset_ms;
      ds ← chart_notes rest offset_ms;
      Ok (d :: ds)
  end.

(** The dictionaries of [notes] before [notes.sort]: instrument by
    instrument, note by note. *)
Definition unsorted_notes (pm : PrettyMidi.PrettyMIDI) (offset_ms : Z)
  : result (list (gmap string value)) :=
  chart_notes (flat_map PrettyMidi.notes (PrettyMidi.instruments pm)) offset_ms.

(** The sort key [x["timeMs"]]; every dictionary of the list has the entry. *)
Definition timeMs_key (x : gmap string value) : Z :=
  match x !! "timeMs"%string with
  | Some (Int t) => t
  | _ => 0
  end.

Definition timeMs_leb (x y : gmap string value) : bool :=
  timeMs_key x <=? timeMs_key y.

Record Chart : Type := mkChart {
  songId : string;
  title : string;
  artist : string;
  bpm : option float;
  offsetMs : Z;
  difficulty : string;
  notes : list (gmap string value);
}.

(** [pm.estimate_tempo()] is called once the notes are sorted; when it
    raises, no chart is returned. *)
Definition build_chart_from_midi (pm : PrettyMidi.PrettyMIDI)
    (track_id title artist difficulty : string) (offset_ms : Z)
  : result Chart :=
  notes ← unsorted_notes pm offset_ms;
  let notes := sort timeMs_leb notes in
  tempo ← PrettyMidi.estimate_tempo pm;
  let bpm := if Float64.truthy tempo then Some tempo else None in
  Ok {| songId := track_id;
        title := title;
        artist := artist;
        bpm := bpm;
        offsetMs := offset_ms;
        difficulty := difficulty;
        notes := notes |}.

(** [sanitize_id].  A Python string is the sequence of its characters, here
    their code points; [isalnum] is [str.isalnum] on one character, which
    Python reads off the Unicode database.  [ch in "-_"] holds for the
    hyphen (45) and the underscore (95). *)
Definition hyphen : N := 45.
Definition underscore : N := 95.

Definition keeps (isalnum : N -> bool) (ch : N) : bool :=
  isalnum ch || ((ch =? hyphen)%N || (ch =? underscore)%N).

Definition sanitize_id (isalnum : N -> bool) (track_id : list N) : list N :=
  map (fun ch => if keeps isalnum ch then ch else underscore) track_id.

End Transcribe.

(** ** Sample inputs

    Three notes on one instrument: pitch 40 from 0 s to 0.05 s and from
    0.09 s to 0.2 s, pitch 65 from 0.5 s to 1 s (the doubles nearest to these
    numbers); stored as the drums stem of the song "Song Name". *)

Module Sample.

Import Py.

Definition pm : PrettyMidi.PrettyMIDI :=
  {| PrettyMidi.instruments :=
       [ {| PrettyMidi.notes :=
              [ {| PrettyMidi.start := 0;
                   PrettyMidi.end_ := 0x1.999999999999ap-5;
                   PrettyMidi.pitch := 40 |};
                {| PrettyMidi.start := 0x1.70a3d70a3d70ap-4;
                   PrettyMidi.end_ := 0x1.999999999999ap-3;
                   PrettyMidi.pitch := 40 |};
                {| PrettyMidi.start := 0.5; PrettyMidi.end_ := 1;
                   PrettyMidi.pitch := 65 |} ] |} ];
     PrettyMidi.estimate_tempo := Ok 120%float |}.

(** The same three events as doubles, and a fourth one on lane 0. *)
Definition events64 : list IEEE.NoteEvent :=
  [ IEEE.mkNoteEvent 0 50 40 0;
    IEEE.mkNoteEvent 90 110 40 0;
    IEEE.mkNoteEvent 500 500 65 2;
    IEEE.mkNoteEvent 600 100 40 0 ].

(** Two notes on lane 0, at 2^-50 ms and at 260 ms: less than 260 ms apart,
    while the double nearest to their difference is 260. *)
Definition close_pair : list IEEE.NoteEvent :=
  [ IEEE.mkNoteEvent 0x1p-50 10 40 0;
    IEEE.mkNoteEvent 260 10 40 0 ].

(** A note that starts at 0 s and ends at 0.3495 s. *)
Definition note_349_5 : PrettyMidi.Note :=
  {| PrettyMidi.start := 0;
     PrettyMidi.end_ := 0x1.65e353f7ced91p-2;
     PrettyMidi.pitch := 60 |}.

Definition events : list BuildChart.NoteEvent :=
  [ BuildChart.mkNoteEvent 0 50 40 0;
    BuildChart.mkNoteEvent 90 110 40 0;
    BuildChart.mkNoteEvent 500 500 65 2 ].

Definition joinpath (dir name : string) : string := (dir ++ "/" ++ name)%string.

Definition str (path : string) : string := path.

Definition drums_only (path : string) : option PrettyMidi.file :=
  if String.eqb path "midi/Song_Name_drums.mid" then Some (PrettyMidi.Midi pm)
  else None.

Definition no_files (path : string) : option PrettyMidi.file := None.

Definition build (fs : string -> option PrettyMidi.file) (bpm : Q)
  : result BuildChart.Chart :=
  BuildChart.build_chart_for_song string joinpath str fs
    "local:0:SongName" "Song Name" "vx9" bpm "midi".

(** The document built from [drums_only] at tempo 120 or -120: the grid is
    125 ms, the note at 90 ms moves to 125 ms and is dropped at the easy and
    normal tiers. *)
Definition drums_entry : BuildChart.StemEntry :=
  let n0 := BuildChart.mkNoteDict 0 50 40 0 in
  let n1 := BuildChart.mkNoteDict 125 110 40 0 in
  let n2 := BuildChart.mkNoteDict 500 500 65 2 in
  {| BuildChart.midiFile := "midi/Song_Name_drums.mid";
     BuildChart.difficulties :=
       {| BuildChart.easy_notes := [n0; n2];
          BuildChart.normal_notes := [n0; n2];
          BuildChart.expert_notes := [n0; n1; n2] |} |}.

Definition chart (bpm : Q) (stems : gmap string BuildChart.StemEntry)
  : BuildChart.Chart :=
  {| BuildChart.trackId := "local:0:SongName";
     BuildChart.songName := "Song Name";
     BuildChart.artist := "vx9";
     BuildChart.bpm := bpm;
     BuildChart.audioOffsetMs := 0;
     BuildChart.stems := stems |}.

End Sample.

(** * Properties *)

Import Py BuildChart.
Import Transcribe (lane_for_midi).

(** ** Lane mappers *)

Lemma map_pitch_to_lane_range (p : Z) : 0 <= map_pitch_to_lane p <= 3.
Proof.
  unfold map_pitch_to_lane.
  destruct (p <? 50); [lia|].
  destruct (p <? 60); [lia|].
  destruct (p <? 72); lia.
Qed.

Lemma map_pitch_to_lane_mono (p q : Z) :
  p <= q -> map_pitch_to_lane p <= map_pitch_to_lane q.
Proof.
  intros Hpq. unfold map_pitch_to_lane.
  destruct (Z.ltb_spec p 50), (Z.ltb_spec q 50),
           (Z.ltb_spec p 60), (Z.ltb_spec q 60),
           (Z.ltb_spec p 72), (Z.ltb_spec q 72); lia.
Qed.

Lemma lane_for_midi_range (p : Z) : 0 <= lane_for_midi p <= 3.
Proof. unfold lane_for_midi. lia. Qed.

Lemma lane_for_midi_mono (p q : Z) :
  p <= q -> lane_for_midi p <= lane_for_midi q.
Proof.
  intros Hpq. unfold lane_for_midi.
  assert ((p - 36) / 12 <= (q - 36) / 12) by (apply Z.div_le_mono; lia).
  lia.
Qed.

Lemma lane_for_midi_low (p : Z) : p <= 36 -> lane_for_midi p = 0.
Proof.
  intros Hp. unfold lane_for_midi.
  assert ((p - 36) / 12 <= 0) by (apply Z.div_le_upper_bound; lia).
  lia.
Qed.

Lemma lane_for_midi_high (p : Z) : 72 <= p -> lane_for_midi p = 3.
Proof.
  intros Hp. unfold lane_for_midi.
  assert (3 <= (p - 36) / 12) by (apply Z.div_le_lower_bound; lia).
  lia.
Qed.

(** C8.  On the MIDI pitch range [0,127] both lane mappers return a lane in
    {0,1,2,3}; the bucket mapper [map_pitch_to_lane] follows its four
    buckets and is non-decreasing; the linear mapper [lane_for_midi] is
    non-decreasing, is 0 up to pitch 36 and 3 from pitch 72 on. *)
Theorem lane_mappers_range_monotone (p q : Z) :
  0 <= p <= 127 -> 0 <= q <= 127 ->
  (0 <= map_pitch_to_lane p <= 3) /\
  (0 <= lane_for_midi p <= 3) /\
  (p < 50 -> map_pitch_to_lane p = 0) /\
  (50 <= p < 60 -> map_pitch_to_lane p = 1) /\
  (60 <= p < 72 -> map_pitch_to_lane p = 2) /\
  (72 <= p -> map_pitch_to_lane p = 3) /\
  (p <= q -> map_pitch_to_lane p <= map_pitch_to_lane q) /\
  (p <= q -> lane_for_midi p <= lane_for_midi q) /\
  (p <= 36 -> lane_for_midi p = 0) /\
  (72 <= p -> lane_for_midi p = 3).
Proof.
  intros _ _.
  split; [apply map_pitch_to_lane_range|].
  split; [apply lane_for_midi_range|].
  repeat split;
    try (intros; unfold map_pitch_to_lane;
         destruct (Z.ltb_spec p 50), (Z.ltb_spec p 60), (Z.ltb_spec p 72);
         lia).
  - apply map_pitch_to_lane_mono.
  - apply lane_for_midi_mono.
  - apply lane_for_midi_low.
  - apply lane_for_midi_high.
Qed.

Lemma lane_mappers_range_monotone_witness :
  (0 <= map_pitch_to_lane 40 <= 3) /\
  (0 <= lane_for_midi 40 <= 3) /\
  (40 < 50 -> map_pitch_to_lane 40 = 0) /\
  (50 <= 40 < 60 -> map_pitch_to_lane 40 = 1) /\
  (60 <= 40 < 72 -> map_pitch_to_lane 40 = 2) /\
  (72 <= 40 -> map_pitch_to_lane 40 = 3) /\
  (40 <= 65 -> map_pitch_to_lane 40 <= map_pitch_to_lane 65) /\
  (40 <= 65 -> lane_for_midi 40 <= lane_for_midi 65) /\
  (40 <= 36 -> lane_for_midi 40 = 0) /\
  (72 <= 40 -> lane_for_midi 40 = 3).
Proof. apply (lane_mappers_range_monotone 40 65); lia. Defined.

(** ** Difficulty thinning *)

Section Thinning.

Variable difficulty : Difficulty.
Variable min_gap : Q.

Local Abbreviation thin := (thin_loop difficulty min_gap).

(** The accumulator [out] is only ever appended to. *)
Lemma thin_loop_out (notes out : list NoteEvent) (last : gmap Z Q) :
  thin notes out last = out ++ thin notes [] last.
Proof.
  revert out last. induction notes as [|n rest IH]; intros out last; simpl.
  - by rewrite app_nil_r.
  - destruct (_ && _).
    + apply IH.
    + rewrite (IH (out ++ [n])), (IH [n]). by rewrite <- app_assoc.
Qed.

(** One iteration of the loop, read off the output. *)
Lemma thin_loop_cons (n : NoteEvent) (rest : list NoteEvent) (last : gmap Z Q) :
  thin (n :: rest) [] last =
  if lt (time_ms n - default no_last_time (last !! lane n)) min_gap
     && drops_on_violation difficulty
  then thin rest [] last
  else n :: thin rest [] (<[lane n := time_ms n]> last).
Proof.
  simpl. destruct (_ && _); [done|]. by rewrite thin_loop_out.
Qed.

Lemma thin_loop_sublist (notes : list NoteEvent) (last : gmap Z Q) :
  thin notes [] last `sublist_of` notes.
Proof.
  revert last. induction notes as [|n rest IH]; intros last.
  - simpl. constructor.
  - rewrite thin_loop_cons. destruct (_ && _).
    + by apply sublist_cons.
    + by apply sublist_skip.
Qed.

(** Lanes do not interact: the lane-[k] part of the output is computed from
    the lane-[k] part of the input and the lane-[k] entry of the table. *)
Lemma thin_loop_on_lane (k : Z) (notes : list NoteEvent) (last last' : gmap Z Q) :
  last !! k = last' !! k ->
  on_lane k (thin notes [] last) = thin (on_lane k notes) [] last'.
Proof.
  unfold on_lane.
  revert last last'. induction notes as [|n rest IH]; intros last last' Hk.
  - done.
  - rewrite thin_loop_cons. destruct (decide (lane n = k)) as [Hn|Hn].
    + rewrite (filter_cons_True _ n rest) by done. rewrite thin_loop_cons.
      rewrite Hn, Hk. destruct (_ && _).
      * by apply IH.
      * rewrite filter_cons_True by done. f_equal.
        apply IH. by rewrite !lookup_insert_eq.
    + rewrite (filter_cons_False _ n rest) by done. destruct (_ && _).
      * by apply IH.
      * rewrite filter_cons_False by done.
        apply IH. by rewrite lookup_insert_ne.
Qed.

(** A tier that does not drop returns its input. *)
Lemma thin_loop_keeps_all (notes : list NoteEvent) (last : gmap Z Q) :
  drops_on_violation difficulty = false -> thin notes [] last = notes.
Proof.
  intros Hdrop. revert last.
  induction notes as [|n rest IH]; intros last; [done|].
  rewrite thin_loop_cons, Hdrop, andb_false_r. f_equal. apply IH.
Qed.

End Thinning.

Lemma drops_on_violation_true (d : Difficulty) :
  d <> expert -> drops_on_violation d = true.
Proof. by destruct d. Qed.

(** ** Difficulty thinning on binary64 times *)

Section ThinningIEEE.

Variable difficulty : Difficulty.
Variable min_gap : float.

Local Abbreviation thin64 := (IEEE.thin_loop difficulty min_gap).

Lemma ieee_thin_loop_out (notes out : list IEEE.NoteEvent)
    (last : gmap Z float) :
  thin64 notes out last = out ++ thin64 notes [] last.
Proof.
  revert out last. induction notes as [|n rest IH]; intros out last; simpl.
  - by rewrite app_nil_r.
  - destruct (_ && _).
    + apply IH.
    + rewrite (IH (out ++ [n])), (IH [n]). by rewrite <- app_assoc.
Qed.

Lemma ieee_thin_loop_cons (n : IEEE.NoteEvent) (rest : list IEEE.NoteEvent)
    (last : gmap Z float) :
  thin64 (n :: rest) [] last =
  if (IEEE.time_ms n - default IEEE.no_last_time (last !! IEEE.lane n)
      <? min_gap)%float
     && drops_on_violation difficulty
  then thin64 rest [] last
  else n :: thin64 rest [] (<[IEEE.lane n := IEEE.time_ms n]> last).
Proof.
  simpl. destruct (_ && _); [done|]. by rewrite ieee_thin_loop_out.
Qed.

Lemma ieee_thin_loop_sublist (notes : list IEEE.NoteEvent)
    (last : gmap Z float) :
  thin64 notes [] last `sublist_of` notes.
Proof.
  revert last. induction notes as [|n rest IH]; intros last.
  - simpl. constructor.
  - rewrite ieee_thin_loop_cons. destruct (_ && _).
    + by apply sublist_cons.
    + by apply sublist_skip.
Qed.

(** At a dropping tier the test of the loop was false for every kept note:
    against the kept note before it on its lane, and against the table
    entry for the first kept note of a lane. *)
Lemma ieee_thin_loop_spaced (k : Z) (notes : list IEEE.NoteEvent)
    (last : gmap Z float) :
  drops_on_violation difficulty = true ->
  IEEE.gap_spaced min_gap (IEEE.on_lane k (thin64 notes [] last)) /\
  (forall h, head (IEEE.on_lane k (thin64 notes [] last)) = Some h ->
     (IEEE.time_ms h - default IEEE.no_last_time (last !! k)
      <? min_gap)%float = false).
Proof.
  intros Hdrop. unfold IEEE.on_lane.
  revert last. induction notes as [|n rest IH]; intros last.
  - split; [exact I|]. intros h Hh. discriminate Hh.
  - rewrite ieee_thin_loop_cons, Hdrop, andb_true_r.
    destruct (_ <? _)%float eqn:Hlt; [apply IH|].
    destruct (IH (<[IEEE.lane n := IEEE.time_ms n]> last)) as [Hsp Hhd].
    destruct (decide (IEEE.lane n = k)) as [Hn|Hn].
    + rewrite filter_cons_True by done. split.
      * split; [|exact Hsp].
        destruct (filter _ _) as [|b l] eqn:Hf; [exact I|].
        specialize (Hhd b eq_refl).
        rewrite Hn, lookup_insert_eq in Hhd. exact Hhd.
      * intros h [= <-]. by rewrite <- Hn.
    + rewrite filter_cons_False by done. split; [exact Hsp|].
      intros h Hh. specialize (Hhd h Hh).
      by rewrite lookup_insert_ne in Hhd.
Qed.

End ThinningIEEE.

Lemma ieee_gap_spaced_lookup (gap : float) (l : list IEEE.NoteEvent)
    (i : nat) (a b : IEEE.NoteEvent) :
  IEEE.gap_spaced gap l -> l !! i = Some a -> l !! S i = Some b ->
  (IEEE.time_ms b - IEEE.time_ms a <? gap)%float = false.
Proof.
  revert i. induction l as [|x l IH]; intros i Hsp Ha Hb; [done|].
  destruct Hsp as [Hx Hl]. destruct i as [|i].
  - simpl in Ha, Hb. destruct l as [|y l]; [done|].
    simpl in Hb. by simplify_eq.
  - by apply (IH i).
Qed.

(** C1, as stated, fails.  The input has two notes on lane 0, at 2^-50 ms
    and at 260 ms, in ascending order.  The easy tier with minimum gap 260
    keeps both, and they are less than 260 ms apart: the loop compares the
    double nearest to the difference, which is 260. *)
Lemma thin_keeps_pair_below_gap :
  let out := IEEE.thin_notes_for_difficulty Sample.close_pair easy 260 160 80 in
  (forall a b, Sample.close_pair = [a; b] ->
     (Float64.value (IEEE.time_ms a) <= Float64.value (IEEE.time_ms b))%Q) /\
  out = Sample.close_pair /\
  exists a b,
    IEEE.on_lane 0 out !! 0%nat = Some a /\
    IEEE.on_lane 0 out !! 1%nat = Some b /\
    (Float64.value (IEEE.time_ms b) - Float64.value (IEEE.time_ms a)
     < Float64.value (IEEE.min_gap_of easy 260 160 80))%Q /\
    (IEEE.time_ms b - IEEE.time_ms a)%float = 260%float.
Proof.
  split.
  { intros a b [= <- <-]. vm_compute. discriminate. }
  split; [vm_compute; reflexivity|].
  exists (IEEE.mkNoteEvent 0x1p-50 10 40 0), (IEEE.mkNoteEvent 260 10 40 0).
  split; [vm_compute; reflexivity|].
  split; [vm_compute; reflexivity|].
  split; vm_compute; reflexivity.
Qed.

(** C1, amended.  At the easy and normal tiers the thinned output is a
    sub-sequence of the input in the input's order, is no longer than the
    input, and for two neighbouring kept notes of one lane the test of the
    loop is false: the double nearest to the difference of their times is
    not below the tier's minimum gap.  (The first kept note of a lane has no
    predecessor and is not constrained.  The order of the input plays no
    role.) *)
Theorem thin_subsequence_rounded_spacing (notes : list IEEE.NoteEvent)
    (d : Difficulty) (sp_easy sp_normal sp_expert : float) :
  d <> expert ->
  let out := IEEE.thin_notes_for_difficulty notes d sp_easy sp_normal sp_expert in
  let gap := IEEE.min_gap_of d sp_easy sp_normal sp_expert in
  out `sublist_of` notes /\
  (length out <= length notes)%nat /\
  forall (k : Z) (i : nat) (a b : IEEE.NoteEvent),
    IEEE.on_lane k out !! i = Some a -> IEEE.on_lane k out !! S i = Some b ->
    (IEEE.time_ms b - IEEE.time_ms a <? gap)%float = false.
Proof.
  intros Hd out gap. subst out gap. unfold IEEE.thin_notes_for_difficulty.
  split; [apply ieee_thin_loop_sublist|].
  split; [apply sublist_length, ieee_thin_loop_sublist|].
  intros k i a b. apply ieee_gap_spaced_lookup.
  by apply ieee_thin_loop_spaced, drops_on_violation_true.
Qed.

(** On the sample with four notes the easy tier keeps two notes of lane 0,
    at 0 ms and at 600 ms, and drops the one at 90 ms. *)
Lemma thin_subsequence_rounded_spacing_witness :
  let out := IEEE.thin_notes_for_difficulty Sample.events64 easy 260 160 80 in
  easy <> expert /\
  IEEE.on_lane 0 out
    = [ IEEE.mkNoteEvent 0 50 40 0; IEEE.mkNoteEvent 600 100 40 0 ] /\
  out `sublist_of` Sample.events64 /\
  (length out <= length Sample.events64)%nat /\
  forall (k : Z) (i : nat) (a b : IEEE.NoteEvent),
    IEEE.on_lane k out !! i = Some a -> IEEE.on_lane k out !! S i = Some b ->
    (IEEE.time_ms b - IEEE.time_ms a <? 260)%float = false.
Proof.
  split; [discriminate|]. split; [vm_compute; reflexivity|].
  apply (thin_subsequence_rounded_spacing Sample.events64 easy 260 160 80).
  discriminate.
Defined.

(** The sample at the three tiers: the second note of lane 0 comes 90 ms
    after the first and is dropped at the easy and normal tiers. *)
Example thin_sample_easy :
  thin_notes_for_difficulty Sample.events easy
    260 default_spacing_normal default_spacing_expert =
  [ mkNoteEvent 0 50 40 0; mkNoteEvent 500 500 65 2 ].
Proof. reflexivity. Qed.

Example thin_sample_normal :
  thin_notes_for_difficulty Sample.events normal
    default_spacing_easy 150 default_spacing_expert =
  [ mkNoteEvent 0 50 40 0; mkNoteEvent 500 500 65 2 ].
Proof. reflexivity. Qed.

Example thin_sample_expert :
  thin_notes_for_difficulty Sample.events expert
    default_spacing_easy default_spacing_normal 80 = Sample.events.
Proof. reflexivity. Qed.

(** C2.  At the expert tier every note is kept, in the input's order,
    whatever the three spacing values are. *)
Theorem thin_expert_keeps_all (notes : list NoteEvent)
    (sp_easy sp_normal sp_expert : Q) :
  thin_notes_for_difficulty notes expert sp_easy sp_normal sp_expert = notes.
Proof.
  unfold thin_notes_for_difficulty. by apply thin_loop_keeps_all.
Qed.

(** C3.  Thinning works lane by lane: at every tier and for every lane [k],
    the lane-[k] notes of the output are the output of thinning the lane-[k]
    notes of the input alone; hence two inputs with the same lane-[k] notes
    keep the same lane-[k] notes, whatever lies on their other lanes.  (The
    order of the input plays no role.) *)
Theorem thin_per_lane_independent (d : Difficulty)
    (sp_easy sp_normal sp_expert : Q) (k : Z) :
  (forall notes : list NoteEvent,
     on_lane k (thin_notes_for_difficulty notes d sp_easy sp_normal sp_expert) =
     thin_notes_for_difficulty (on_lane k notes) d sp_easy sp_normal sp_expert)
  /\
  (forall notes notes' : list NoteEvent,
     on_lane k notes = on_lane k notes' ->
     on_lane k (thin_notes_for_difficulty notes d sp_easy sp_normal sp_expert) =
     on_lane k (thin_notes_for_difficulty notes' d sp_easy sp_normal sp_expert)).
Proof.
  assert (Hcomm : forall notes : list NoteEvent,
    on_lane k (thin_notes_for_difficulty notes d sp_easy sp_normal sp_expert) =
    thin_notes_for_difficulty (on_lane k notes) d sp_easy sp_normal sp_expert).
  { intros notes. unfold thin_notes_for_difficulty. by apply thin_loop_on_lane. }
  split; [exact Hcomm|].
  intros notes notes' Heq. by rewrite !Hcomm, Heq.
Qed.

(** ** Thinning with two gaps *)

Lemma lt_true (x y : Q) : lt x y = true <-> (x < y)%Q.
Proof.
  unfold lt. rewrite negb_true_iff, <- not_true_iff_false, Qle_bool_iff.
  split; [apply Qnot_le_lt | apply Qlt_not_le].
Qed.

Lemma lt_false (x y : Q) : lt x y = false <-> (y <= x)%Q.
Proof. unfold lt. by rewrite negb_false_iff, Qle_bool_iff. Qed.

Lemma size_with_member (k : Z) (B : gset Z) :
  k ∈ B -> size B = S (size (B ∖ {[k]})).
Proof.
  intros Hk. rewrite (union_difference_singleton_L k B Hk) at 1.
  rewrite size_union by set_solver. by rewrite size_singleton.
Qed.

Section TwoGaps.

Variables d1 d2 : Difficulty.
Variables g1 g2 : Q.
Hypothesis Hd1 : drops_on_violation d1 = true.
Hypothesis Hd2 : drops_on_violation d2 = true.
Hypothesis Hgap : (g1 <= g2)%Q.

Local Abbreviation last_of m k := (default no_last_time (m !! k)).

(** The run with the smaller gap stays ahead.  Lanes outside [B] are level:
    their last kept time under [g1] is not later than under [g2].  On a lane
    in [B] the [g1] run has kept one note more, and its last kept time is not
    later than any note still to come. *)
Lemma thin_loop_gap_mono (notes : list NoteEvent) (l1 l2 : gmap Z Q) (B : gset Z) :
  time_sorted notes ->
  (forall k, k ∉ B -> (last_of l1 k <= last_of l2 k)%Q) ->
  (forall k, k ∈ B -> Forall (fun n => (last_of l1 k <= time_ms n)%Q) notes) ->
  (length (thin_loop d2 g2 notes [] l2) <=
   length (thin_loop d1 g1 notes [] l1) + size B)%nat.
Proof.
  revert l1 l2 B.
  induction notes as [|n rest IH]; intros l1 l2 B Hsorted Hlevel Hahead.
  { simpl. lia. }
  destruct Hsorted as [Hn Hrest].
  assert (Hahead' : forall k, k ∈ B ->
            Forall (fun n => (last_of l1 k <= time_ms n)%Q) rest).
  { intros k Hk. specialize (Hahead k Hk).
    by apply Forall_cons in Hahead as [_ Hahead]. }
  rewrite !thin_loop_cons, Hd1, Hd2, !andb_true_r.
  destruct (lt (time_ms n - last_of l2 (lane n)) g2) eqn:E2;
    destruct (lt (time_ms n - last_of l1 (lane n)) g1) eqn:E1.
  - (* dropped by both *)
    by apply IH.
  - (* kept under g1 only: the lane gets ahead *)
    destruct (decide (lane n ∈ B)) as [Hin|Hout].
    + etrans; [apply (IH (<[lane n := time_ms n]> l1) l2 B Hrest)|simpl; lia].
      * intros k Hk. rewrite lookup_insert_ne by set_solver. by apply Hlevel.
      * intros k Hk. destruct (decide (lane n = k)) as [<-|Hne].
        -- by rewrite lookup_insert_eq.
        -- rewrite lookup_insert_ne by done. by apply Hahead'.
    + etrans; [apply (IH (<[lane n := time_ms n]> l1) l2 ({[lane n]} ∪ B) Hrest)|].
      * intros k Hk. rewrite lookup_insert_ne by set_solver.
        apply Hlevel. set_solver.
      * intros k Hk. destruct (decide (lane n = k)) as [<-|Hne].
        -- by rewrite lookup_insert_eq.
        -- rewrite lookup_insert_ne by done. apply Hahead'. set_solver.
      * rewrite size_union by set_solver. rewrite size_singleton. simpl. lia.
  - (* kept under g2 only: the lane was ahead and is level again *)
    apply lt_false in E2. apply lt_true in E1.
    assert (Hin : lane n ∈ B).
    { destruct (decide (lane n ∈ B)) as [|Hout]; [done|].
      specialize (Hlevel _ Hout). lra. }
    rewrite (size_with_member _ _ Hin). simpl.
    etrans; [apply le_n_S,
      (IH l1 (<[lane n := time_ms n]> l2) (B ∖ {[lane n]}) Hrest)|lia].
    + intros k Hk. destruct (decide (lane n = k)) as [<-|Hne].
      * rewrite lookup_insert_eq. simpl.
        specialize (Hahead _ Hin). by apply Forall_cons in Hahead as [Hahead _].
      * rewrite lookup_insert_ne by done. apply Hlevel. set_solver.
    + intros k Hk. apply Hahead'. set_solver.
  - (* kept by both *)
    simpl. apply le_n_S.
    apply (IH (<[lane n := time_ms n]> l1) (<[lane n := time_ms n]> l2) B Hrest).
    + intros k Hk. destruct (decide (lane n = k)) as [<-|Hne].
      * rewrite !lookup_insert_eq. simpl. lra.
      * rewrite !lookup_insert_ne by done. by apply Hlevel.
    + intros k Hk. destruct (decide (lane n = k)) as [<-|Hne].
      * by rewrite lookup_insert_eq.
      * rewrite lookup_insert_ne by done. by apply Hahead'.
Qed.

End TwoGaps.

(** Between two dropping tiers the larger gap keeps no more notes. *)
Lemma thin_gap_mono_length (notes : list NoteEvent) (d d' : Difficulty)
    (e n x e' n' x' : Q) :
  time_sorted notes ->
  d <> expert -> d' <> expert ->
  (min_gap_of d e n x <= min_gap_of d' e' n' x')%Q ->
  (length (thin_notes_for_difficulty notes d' e' n' x') <=
   length (thin_notes_for_difficulty notes d e n x))%nat.
Proof.
  intros Hsorted Hd Hd' Hle. unfold thin_notes_for_difficulty.
  pose proof (thin_loop_gap_mono d d' _ _
    (drops_on_violation_true d Hd) (drops_on_violation_true d' Hd') Hle
    notes ∅ ∅ ∅ Hsorted) as H.
  rewrite size_empty, Nat.add_0_r in H. apply H.
  - intros k _. rewrite lookup_empty. simpl. lra.
  - intros k Hk. by apply not_elem_of_empty in Hk.
Qed.

(** The three passes of [build_chart_for_song], as it calls them. *)
Lemma thin_three_passes_ordered (notes : list NoteEvent) :
  time_sorted notes ->
  (length (thin_notes_for_difficulty notes easy
             260 default_spacing_normal default_spacing_expert) <=
   length (thin_notes_for_difficulty notes normal
             default_spacing_easy 150 default_spacing_expert))%nat /\
  (length (thin_notes_for_difficulty notes normal
             default_spacing_easy 150 default_spacing_expert) <=
   length (thin_notes_for_difficulty notes expert
             default_spacing_easy default_spacing_normal 80))%nat.
Proof.
  intros Hsorted. split.
  - apply thin_gap_mono_length; [done|done|done|]. simpl. lra.
  - unfold thin_notes_for_difficulty at 2.
    rewrite thin_loop_keeps_all by done.
    apply sublist_length. unfold thin_notes_for_difficulty.
    apply thin_loop_sublist.
Qed.

(** C4.  On a time-sorted input the three passes of [build_chart_for_song]
    are ordered in length: easy (gap 260) keeps at most as many notes as
    normal (gap 150), which keeps at most as many as expert; and in general,
    between two dropping tiers, the pass with the larger minimum gap never
    keeps more notes. *)
Theorem thin_length_ordered (notes : list NoteEvent) :
  time_sorted notes ->
  (length (thin_notes_for_difficulty notes easy
             260 default_spacing_normal default_spacing_expert) <=
   length (thin_notes_for_difficulty notes normal
             default_spacing_easy 150 default_spacing_expert))%nat /\
  (length (thin_notes_for_difficulty notes normal
             default_spacing_easy 150 default_spacing_expert) <=
   length (thin_notes_for_difficulty notes expert
             default_spacing_easy default_spacing_normal 80))%nat /\
  (forall (d d' : Difficulty) (e n x e' n' x' : Q),
     d <> expert -> d' <> expert ->
     (min_gap_of d e n x <= min_gap_of d' e' n' x')%Q ->
     (length (thin_notes_for_difficulty notes d' e' n' x') <=
      length (thin_notes_for_difficulty notes d e n x))%nat).
Proof.
  intros Hsorted.
  destruct (thin_three_passes_ordered notes Hsorted) as [H1 H2].
  split; [exact H1|]. split; [exact H2|].
  intros d d' e n x e' n' x'. by apply thin_gap_mono_length.
Qed.

Lemma sample_events_sorted : time_sorted Sample.events.
Proof.
  cbn [time_sorted Sample.events].
  repeat split; repeat constructor; cbn; lra.
Qed.

Lemma thin_length_ordered_witness :
  time_sorted Sample.events /\
  (length (thin_notes_for_difficulty Sample.events easy
             260 default_spacing_normal default_spacing_expert) <=
   length (thin_notes_for_difficulty Sample.events normal
             default_spacing_easy 150 default_spacing_expert))%nat /\
  (length (thin_notes_for_difficulty Sample.events normal
             default_spacing_easy 150 default_spacing_expert) <=
   length (thin_notes_for_difficulty Sample.events expert
             default_spacing_easy default_spacing_normal 80))%nat.
Proof.
  split; [exact sample_events_sorted|].
  destruct (thin_length_ordered Sample.events sample_events_sorted)
    as (H1 & H2 & _).
  by split.
Defined.

(** ** Grid quantisation *)

Lemma round_comp (x y : Q) : (x == y)%Q -> round x = round y.
Proof.
  intros Hxy. unfold round. rewrite (Qfloor_comp x y Hxy).
  assert (Hc : ((x - inject_Z (Qfloor y)) ?= 1 # 2)%Q
             = ((y - inject_Z (Qfloor y)) ?= 1 # 2)%Q).
  { apply Qcompare_comp; [by rewrite Hxy | reflexivity]. }
  by rewrite Hc.
Qed.

Lemma round_inject_Z (k : Z) : round (inject_Z k) = k.
Proof.
  unfold round. rewrite Qfloor_Z.
  assert (Hlt : (inject_Z k - inject_Z k < 1 # 2)%Q) by lra.
  by rewrite (proj1 (Qlt_alt _ _) Hlt).
Qed.

(** A time that is a whole number of grid steps is a fixed point. *)
Lemma round_on_grid (k : Z) (g : Q) :
  ~ (g == 0)%Q -> round (inject_Z k * g / g) = k.
Proof.
  intros Hg. rewrite <- (round_inject_Z k) at 2.
  apply round_comp. by field.
Qed.

Lemma truediv_nonzero (x y : Q) : ~ (y == 0)%Q -> truediv x y = Ok (x / y)%Q.
Proof.
  intros Hy. unfold truediv.
  destruct (Qeq_bool y 0) eqn:E; [|done].
  by apply Qeq_bool_iff in E.
Qed.

Lemma truediv_zero (x y : Q) : (y == 0)%Q -> truediv x y = Raise ZeroDivisionError.
Proof.
  intros Hy. unfold truediv. apply Qeq_bool_iff in Hy. by rewrite Hy.
Qed.

Lemma quantize_note_nonzero (g : Q) (n : NoteEvent) :
  ~ (g == 0)%Q ->
  quantize_note g n =
  Ok {| time_ms := (inject_Z (round (time_ms n / g)) * g)%Q;
        duration_ms := duration_ms n; pitch := pitch n; lane := lane n |}.
Proof. intros Hg. unfold quantize_note. by rewrite truediv_nonzero. Qed.

(** In exact arithmetic a pass with a non-zero grid returns, and a second
    pass over its result changes nothing: [k * g / g] is [k]. *)
Lemma quantize_nonzero_idempotent (notes : list NoteEvent) (g : Q) :
  ~ (g == 0)%Q ->
  exists once : list NoteEvent,
    quantize_notes_to_grid notes g = Ok once /\
    quantize_notes_to_grid once g = Ok once.
Proof.
  intros Hg. induction notes as [|n rest (once & H1 & H2)].
  - by exists [].
  - eexists. cbn [quantize_notes_to_grid].
    rewrite quantize_note_nonzero, H1 by done.
    split; [reflexivity|]. cbn [quantize_notes_to_grid].
    rewrite quantize_note_nonzero, H2 by done. cbn.
    by rewrite round_on_grid.
Qed.

(** The sample on the 125 ms grid of tempo 120: 90 ms is 0.72 steps and
    moves up to 125 ms.  Exact halves go to the even step. *)
Example quantize_sample :
  (fun r => match r with Ok l => map to_dict l | Raise _ => [] end)
    (quantize_notes_to_grid Sample.events 125) =
  [ mkNoteDict 0 50 40 0; mkNoteDict 125 110 40 0; mkNoteDict 500 500 65 2 ].
Proof. reflexivity. Qed.

Example round_half_even :
  round (1 # 2) = 0 /\ round (3 # 2) = 2 /\ round (5 # 2) = 2 /\
  round (- (1 # 2)) = 0 /\ round (- (3 # 2)) = -2 /\ round (72 # 100) = 1.
Proof. repeat split. Qed.

(** ** Stable sort *)

Lemma insert_sorted_perm {A : Type} (leb : A -> A -> bool) (x : A) (l : list A) :
  insert_sorted leb x l ≡ₚ x :: l.
Proof.
  induction l as [|y l IH]; simpl; [done|].
  destruct (leb y x); [|done].
  rewrite IH. apply Permutation_swap.
Qed.

Lemma sort_perm {A : Type} (leb : A -> A -> bool) (l : list A) :
  sort leb l ≡ₚ l.
Proof.
  unfold sort.
  assert (H : forall acc,
    fold_left (fun acc x => insert_sorted leb x acc) l acc ≡ₚ l ++ acc).
  { induction l as [|x l IH]; intros acc; simpl; [done|].
    rewrite IH, insert_sorted_perm. by rewrite Permutation_middle. }
  by rewrite H, app_nil_r.
Qed.

Lemma time_sorted_cons (a : NoteEvent) (l : list NoteEvent) :
  time_sorted (a :: l) <->
  Forall (fun b => (time_ms a <= time_ms b)%Q) l /\ time_sorted l.
Proof. reflexivity. Qed.

Lemma insert_sorted_time_sorted (x : NoteEvent) (l : list NoteEvent) :
  time_sorted l -> time_sorted (insert_sorted time_leb x l).
Proof.
  induction l as [|y l IH]; intros Hl.
  - by split.
  - destruct Hl as [Hy Hl]. cbn [insert_sorted]. unfold time_leb at 1.
    destruct (Qle_bool (time_ms y) (time_ms x)) eqn:E.
    + apply Qle_bool_iff in E. split; [|by apply IH].
      rewrite insert_sorted_perm. by constructor.
    + assert (Hxy : (time_ms x <= time_ms y)%Q).
      { apply Qlt_le_weak, Qnot_le_lt. intros H.
        apply Qle_bool_iff in H. congruence. }
      split; [|by split]. constructor; [done|].
      eapply Forall_impl; [exact Hy|]. intros b Hb. cbn in Hb. lra.
Qed.

(** [load_midi_notes] hands out its events in time order. *)
Lemma sort_time_sorted (l : list NoteEvent) : time_sorted (sort time_leb l).
Proof.
  unfold sort.
  assert (H : forall acc, time_sorted acc ->
    time_sorted (fold_left (fun acc x => insert_sorted time_leb x acc) l acc)).
  { induction l as [|x l IH]; intros acc Hacc; [done|].
    cbn [fold_left]. by apply IH, insert_sorted_time_sorted. }
  by apply H.
Qed.

Lemma round_mono (x y : Q) : (x <= y)%Q -> round x <= round y.
Proof.
  intros Hxy. pose proof (Qfloor_resp_le x y Hxy) as Hf.
  assert (Hlo : forall z, Qfloor z <= round z <= Qfloor z + 1).
  { intros z. unfold round. destruct (_ ?= _)%Q; [destruct (Z.even _)| |]; lia. }
  destruct (Z.eq_dec (Qfloor x) (Qfloor y)) as [Heq|Hne].
  - unfold round. rewrite <- Heq.
    destruct (Qcompare_spec (x - inject_Z (Qfloor x)) (1 # 2)) as [Hx|Hx|Hx];
      destruct (Qcompare_spec (y - inject_Z (Qfloor x)) (1 # 2)) as [Hy|Hy|Hy];
      try destruct (Z.even _); try lia; exfalso; lra.
  - pose proof (Hlo x). pose proof (Hlo y). lia.
Qed.

Lemma quantize_nonzero_map (notes : list NoteEvent) (g : Q) :
  ~ (g == 0)%Q ->
  quantize_notes_to_grid notes g = Ok (map (quantized_note g) notes).
Proof.
  intros Hg. induction notes as [|n rest IH]; [done|].
  cbn [quantize_notes_to_grid]. by rewrite quantize_note_nonzero, IH.
Qed.

Lemma quantized_note_mono (g : Q) (a b : NoteEvent) :
  (0 < g)%Q -> (time_ms a <= time_ms b)%Q ->
  (time_ms (quantized_note g a) <= time_ms (quantized_note g b))%Q.
Proof.
  intros Hg Hab. cbn [quantized_note time_ms].
  apply Qmult_le_compat_r; [|lra].
  rewrite <- Zle_Qle. apply round_mono.
  apply Qmult_le_compat_r; [done|].
  apply Qlt_le_weak, Qinv_lt_0_compat, Hg.
Qed.

(** On a positive grid quantisation keeps the time order. *)
Lemma quantize_time_sorted (notes quantized : list NoteEvent) (g : Q) :
  (0 < g)%Q -> time_sorted notes ->
  quantize_notes_to_grid notes g = Ok quantized -> time_sorted quantized.
Proof.
  intros Hg Hsorted. rewrite quantize_nonzero_map by lra. intros [= <-].
  induction notes as [|a rest IH]; [done|].
  destruct Hsorted as [Ha Hrest]. split; [|by apply IH].
  apply Forall_map. eapply Forall_impl; [exact Ha|].
  intros b Hb. by apply quantized_note_mono.
Qed.

(** ** Tap and hold classification *)

Lemma bind_Ok {A B : Type} (r : result A) (k : A -> result B) (b : B) :
  r ≫= k = Ok b <-> exists a, r = Ok a /\ k a = Ok b.
Proof.
  destruct r as [a|e]; cbn.
  - split; [by exists a|]. by intros (a' & [= <-] & H).
  - split; [done|]. by intros (a' & H & _).
Qed.

Section Classifier.

Import Transcribe.

Variable n : PrettyMidi.Note.
Variable offset_ms : Z.

(** The note gets a dictionary exactly when both its times convert, and
    then it is the dictionary of these times. *)
Lemma chart_note_Ok (d : gmap string value) :
  chart_note n offset_ms = Ok d <->
  exists startMs endMs,
    start_ms n offset_ms = Ok startMs /\ end_ms n offset_ms = Ok endMs /\
    d = note_dict (lane_for_midi (PrettyMidi.pitch n)) startMs endMs.
Proof.
  unfold chart_note. rewrite bind_Ok. split.
  - intros (s & Hs & H). apply bind_Ok in H as (e & He & [= <-]).
    by exists s, e.
  - intros (s & e & Hs & He & ->). exists s. split; [done|].
    apply bind_Ok. by exists e.
Qed.

Lemma start_ms_Ok (startMs : Z) :
  start_ms n offset_ms = Ok startMs <->
  exists ms, Float64.round (PrettyMidi.start n * 1000)%float = Ok ms /\
             startMs = ms + offset_ms.
Proof.
  unfold start_ms. rewrite bind_Ok.
  split; intros (ms & H1 & H2); exists ms; split; [done| |done|];
    [by injection H2|by rewrite H2].
Qed.

Lemma end_ms_Ok (endMs : Z) :
  end_ms n offset_ms = Ok endMs <->
  exists ms, Float64.round (PrettyMidi.end_ n * 1000)%float = Ok ms /\
             endMs = ms + offset_ms.
Proof.
  unfold end_ms. rewrite bind_Ok.
  split; intros (ms & H1 & H2); exists ms; split; [done| |done|];
    [by injection H2|by rewrite H2].
Qed.

End Classifier.

Lemma note_dict_hold (lane startMs endMs : Z) :
  350 <= endMs - startMs ->
  Transcribe.note_dict lane startMs endMs =
  list_to_map [("timeMs", Transcribe.Int startMs);
               ("lane", Transcribe.Int lane);
               ("type", Transcribe.Str "hold");
               ("endTimeMs", Transcribe.Int endMs)]%string.
Proof.
  intros H. unfold Transcribe.note_dict.
  by destruct (Z.leb_spec 350 (endMs - startMs)); [|lia].
Qed.

Lemma note_dict_tap (lane startMs endMs : Z) :
  endMs - startMs < 350 ->
  Transcribe.note_dict lane startMs endMs =
  list_to_map [("timeMs", Transcribe.Int startMs);
               ("lane", Transcribe.Int lane);
               ("type", Transcribe.Str "tap")]%string.
Proof.
  intros H. unfold Transcribe.note_dict.
  by destruct (Z.leb_spec 350 (endMs - startMs)); [lia|].
Qed.

(** The loop returns the dictionaries of its notes, one each, in order. *)
Lemma chart_notes_Ok (ns : list PrettyMidi.Note) (offset_ms : Z)
    (ds : list (gmap string Transcribe.value)) :
  Transcribe.chart_notes ns offset_ms = Ok ds <->
  Forall2 (fun n d => Transcribe.chart_note n offset_ms = Ok d) ns ds.
Proof.
  revert ds. induction ns as [|n ns IH]; intros ds; cbn [Transcribe.chart_notes].
  - split; [by intros [= <-]; constructor|]. intros H. by inversion H.
  - rewrite bind_Ok. split.
    + intros (d & Hd & H). apply bind_Ok in H as (ds' & Hds & [= <-]).
      constructor; [done|]. by apply IH.
    + intros H. inversion H as [|? d ? ds' Hd Hds]; subst.
      exists d. split; [done|]. apply bind_Ok. exists ds'.
      split; [by apply IH|done].
Qed.

(** What a returned chart holds: the sorted dictionaries of the notes. *)
Lemma build_chart_from_midi_Ok (pm : PrettyMidi.PrettyMIDI)
    (track_id title artist difficulty : string) (offset_ms : Z)
    (chart : Transcribe.Chart) :
  Transcribe.build_chart_from_midi pm track_id title artist difficulty
    offset_ms = Ok chart ->
  exists unsorted,
    Transcribe.unsorted_notes pm offset_ms = Ok unsorted /\
    Transcribe.notes chart = sort Transcribe.timeMs_leb unsorted.
Proof.
  unfold Transcribe.build_chart_from_midi. rewrite bind_Ok.
  intros (unsorted & Hu & H). apply bind_Ok in H as (tempo & _ & [= <-]).
  by exists unsorted.
Qed.

(** C6.  In every chart the single-stream builder returns, the notes are the
    dictionaries of the notes of the MIDI data, one each.  With [startMs]
    and [endMs] the rounded, offset-adjusted times of a note (the doubles
    [start * 1000] and [end * 1000] rounded to integers, plus the offset): a
    note whose times convert gets a dictionary; if [endMs - startMs >= 350]
    the dictionary has type "hold" and an entry [endTimeMs] equal to
    [endMs]; otherwise it has type "tap" and no entry [endTimeMs].  In both
    cases [timeMs] is [startMs], and an [endTimeMs] that is present is
    strictly greater than [timeMs]. *)
Theorem classifier_hold_iff_threshold (pm : PrettyMidi.PrettyMIDI)
    (track_id title artist difficulty : string) (offset_ms : Z)
    (chart : Transcribe.Chart) :
  Transcribe.build_chart_from_midi pm track_id title artist difficulty
    offset_ms = Ok chart ->
  (forall d : gmap string Transcribe.value,
     d ∈ Transcribe.notes chart <->
     exists inst n, inst ∈ PrettyMidi.instruments pm /\
                    n ∈ PrettyMidi.notes inst /\
                    Transcribe.chart_note n offset_ms = Ok d) /\
  (forall (n : PrettyMidi.Note) (startMs endMs : Z),
     Transcribe.start_ms n offset_ms = Ok startMs ->
     Transcribe.end_ms n offset_ms = Ok endMs ->
     exists d, Transcribe.chart_note n offset_ms = Ok d) /\
  (forall (n : PrettyMidi.Note) (d : gmap string Transcribe.value),
     Transcribe.chart_note n offset_ms = Ok d ->
     exists startMs endMs,
       Transcribe.start_ms n offset_ms = Ok startMs /\
       Transcribe.end_ms n offset_ms = Ok endMs /\
       d !! "timeMs"%string = Some (Transcribe.Int startMs) /\
       (350 <= endMs - startMs ->
          d !! "type"%string = Some (Transcribe.Str "hold") /\
          d !! "endTimeMs"%string = Some (Transcribe.Int endMs)) /\
       (endMs - startMs < 350 ->
          d !! "type"%string = Some (Transcribe.Str "tap") /\
          d !! "endTimeMs"%string = None) /\
       (forall t e : Z,
          d !! "timeMs"%string = Some (Transcribe.Int t) ->
          d !! "endTimeMs"%string = Some (Transcribe.Int e) -> t < e)).
Proof.
  intros Hbuild.
  apply build_chart_from_midi_Ok in Hbuild as (unsorted & Hu & ->).
  apply chart_notes_Ok in Hu. split; [|split].
  - intros d. rewrite sort_perm. split.
    + intros Hd. apply list_elem_of_lookup in Hd as [i Hi].
      destruct (Forall2_lookup_r _ _ _ _ _ Hu Hi) as (n & Hn & Hnd).
      apply list_elem_of_lookup_2, list_elem_of_In, in_flat_map in Hn
        as (inst & Hinst & Hn).
      exists inst, n. by rewrite !list_elem_of_In.
    + intros (inst & n & Hinst & Hn & Hd).
      assert (Hin : n ∈ flat_map PrettyMidi.notes (PrettyMidi.instruments pm)).
      { apply list_elem_of_In, in_flat_map. exists inst.
        by rewrite <- !list_elem_of_In. }
      apply list_elem_of_lookup in Hin as [i Hi].
      destruct (Forall2_lookup_l _ _ _ _ _ Hu Hi) as (d' & Hd' & Hnd).
      rewrite Hd in Hnd. injection Hnd as <-.
      by apply list_elem_of_lookup_2 in Hd'.
  - intros n s e Hs He. eexists. apply chart_note_Ok. by exists s, e.
  - intros n d Hd. apply chart_note_Ok in Hd as (s & e & Hs & He & ->).
    exists s, e. split; [done|]. split; [done|].
    destruct (Z.le_gt_cases 350 (e - s)) as [H|H].
    + rewrite note_dict_hold by done.
      split; [done|]. split; [done|]. split; [intros; lia|].
      intros t e' Ht He'.
      change (Some (Transcribe.Int s) = Some (Transcribe.Int t)) in Ht.
      change (Some (Transcribe.Int e) = Some (Transcribe.Int e')) in He'.
      simplify_eq. lia.
    + rewrite note_dict_tap by done.
      split; [done|]. split; [intros; lia|]. split; [done|].
      intros t e' _ He'. discriminate He'.
Qed.

Lemma classifier_hold_iff_threshold_witness :
  exists chart,
    Transcribe.build_chart_from_midi Sample.pm "local:0:SongName" "song"
      "STEMSTATION" "easy" 0 = Ok chart /\
    forall d : gmap string Transcribe.value,
      d ∈ Transcribe.notes chart <->
      exists inst n, inst ∈ PrettyMidi.instruments Sample.pm /\
                     n ∈ PrettyMidi.notes inst /\
                     Transcribe.chart_note n 0 = Ok d.
Proof.
  destruct (Transcribe.build_chart_from_midi Sample.pm "local:0:SongName"
              "song" "STEMSTATION" "easy" 0) as [chart|e] eqn:E.
  - exists chart. split; [reflexivity|].
    exact (proj1 (classifier_hold_iff_threshold Sample.pm _ _ _ _ 0 chart E)).
  - vm_compute in E. discriminate E.
Defined.

(** The threshold is met by rounding: a note from 0 s to 0.3495 s has the
    product 349.5, which rounds to the even 350, and is a hold; the third
    sample note lasts 500 ms and is a hold as well, the other two are
    taps. *)
Example chart_note_at_threshold :
  Transcribe.chart_note Sample.note_349_5 0
  = Ok (list_to_map [("timeMs", Transcribe.Int 0);
                     ("lane", Transcribe.Int 2);
                     ("type", Transcribe.Str "hold");
                     ("endTimeMs", Transcribe.Int 350)]%string).
Proof. vm_compute. reflexivity. Qed.

Example chart_notes_sample :
  Transcribe.notes <$>
    (Transcribe.build_chart_from_midi Sample.pm "local:0:SongName" "song"
       "STEMSTATION" "easy" 0)
  = Ok [ list_to_map [("timeMs", Transcribe.Int 0);
                      ("lane", Transcribe.Int 0);
                      ("type", Transcribe.Str "tap")]%string;
         list_to_map [("timeMs", Transcribe.Int 90);
                      ("lane", Transcribe.Int 0);
                      ("type", Transcribe.Str "tap")]%string;
         list_to_map [("timeMs", Transcribe.Int 500);
                      ("lane", Transcribe.Int 2);
                      ("type", Transcribe.Str "hold");
                      ("endTimeMs", Transcribe.Int 1000)]%string ].
Proof. vm_compute. reflexivity. Qed.

(** ** The multi-stem chart document *)

(** The sixteenth-note grid of a non-zero tempo is not zero. *)
Lemma grid_nonzero (bpm : Q) : ~ (bpm == 0)%Q -> ~ (60000 / bpm / 4 == 0)%Q.
Proof.
  intros Hnz H.
  assert (H15 : (bpm * (60000 / bpm / 4) == 15000)%Q) by (by field).
  rewrite H in H15. ring_simplify in H15. discriminate H15.
Qed.

Section Build.

Variable Path : Type.
Variable joinpath : Path -> string -> Path.
Variable str : Path -> string.
Variable fs : Path -> option PrettyMidi.file.
Variable track_id song_name artist_name : string.
Variable bpm_arg : Q.
Variable midi_dir : Path.

Local Abbreviation path_of :=
  (midi_path Path joinpath song_name midi_dir).
Local Abbreviation present stem :=
  (path_exists Path fs (path_of stem) = true).
Local Abbreviation stem_step :=
  (build_stem Path joinpath str fs song_name bpm_arg midi_dir).
Local Abbreviation stem_loop :=
  (build_stems Path joinpath str fs song_name bpm_arg midi_dir).
Local Abbreviation build :=
  (build_chart_for_song Path joinpath str fs track_id song_name artist_name
     bpm_arg midi_dir).

(** A stem without a source file leaves the dictionary as it is. *)
Lemma build_stem_absent (stems : gmap string StemEntry) (stem : string) :
  ~ present stem -> stem_step stems stem = Ok stems.
Proof.
  intros Habs. unfold build_stem.
  by destruct (path_exists _ _ _) eqn:E.
Qed.

(** A stem with a source file gets an entry, when the iteration returns. *)
Lemma build_stem_present (stems stems' : gmap string StemEntry) (stem : string) :
  present stem -> stem_step stems stem = Ok stems' ->
  exists entry, stems' = <[stem := entry]> stems.
Proof.
  intros Hpre. unfold build_stem. rewrite Hpre. cbn [negb].
  destruct (load_midi_notes _ _ _) as [all_notes|]; [|done].
  destruct (truediv _ _) as [beat_ms|]; [|done]. cbn.
  destruct (quantize_notes_to_grid _ _) as [quantized|]; [|done]. cbn.
  intros [= <-]. by eexists.
Qed.

Lemma build_stem_keys (stems stems' : gmap string StemEntry) (stem k : string) :
  stem_step stems stem = Ok stems' ->
  is_Some (stems' !! k) <-> is_Some (stems !! k) \/ (k = stem /\ present stem).
Proof.
  intros Hstep.
  destruct (path_exists Path fs (path_of stem)) eqn:E.
  - destruct (build_stem_present _ _ _ E Hstep) as [entry ->].
    rewrite lookup_insert_is_Some. clear Hstep.
    destruct (decide (stem = k)) as [->|Hne]; naive_solver.
  - rewrite build_stem_absent in Hstep by (by rewrite E).
    injection Hstep as <-. split; [by left|].
    intros [H|[_ H]]; [done|discriminate H].
Qed.

Lemma build_stems_keys (names : list string) (stems stems' : gmap string StemEntry)
    (k : string) :
  stem_loop names stems = Ok stems' ->
  is_Some (stems' !! k) <-> is_Some (stems !! k) \/ (k ∈ names /\ present k).
Proof.
  revert stems. induction names as [|stem rest IH]; intros stems.
  - intros [= <-]. split; [by left|]. intros [H|[H _]]; [done|].
    by apply elem_of_nil in H.
  - cbn [build_stems].
    destruct (stem_step stems stem) as [stems1|] eqn:E; [|done]. cbn.
    intros Hrest. rewrite (IH _ Hrest), (build_stem_keys _ _ _ _ E).
    rewrite elem_of_cons. naive_solver.
Qed.

(** With tempo zero the first stem that has a source file ends the build. *)
Lemma build_stems_zero_bpm (names : list string) (stems : gmap string StemEntry) :
  (bpm_arg == 0)%Q ->
  (exists stem, stem ∈ names /\ present stem) ->
  exists e, stem_loop names stems = Raise e.
Proof.
  intros Hz. revert stems.
  induction names as [|stem rest IH]; intros stems (s & Hs & Hpre).
  { by apply elem_of_nil in Hs. }
  cbn [build_stems].
  destruct (path_exists Path fs (path_of stem)) eqn:E.
  - unfold build_stem. rewrite E. cbn [negb].
    destruct (load_midi_notes _ _ _) as [all_notes|e]; [|by exists e].
    rewrite (truediv_zero _ _ Hz). by exists ZeroDivisionError.
  - rewrite build_stem_absent by (by rewrite E). cbn.
    apply IH. exists s. split; [|done].
    apply elem_of_cons in Hs as [->|Hs]; [|done].
    by rewrite E in Hpre.
Qed.

Lemma build_chart_stems (chart : BuildChart.Chart) :
  build = Ok chart ->
  stem_loop stem_names ∅ = Ok (stems chart) /\ audioOffsetMs chart = 0.
Proof.
  unfold build_chart_for_song.
  destruct (build_stems _ _ _ _ _ _ _ _ _) as [stems'|]; [|done].
  by intros [= <-].
Qed.

Lemma load_midi_notes_sorted (path : Path) (all_notes : list NoteEvent) :
  load_midi_notes Path fs path = Ok all_notes -> time_sorted all_notes.
Proof.
  unfold load_midi_notes.
  destruct (PrettyMidi.open fs path) as [pm|]; [|done]. cbn.
  intros [= <-]. apply sort_time_sorted.
Qed.

(** With a positive tempo every stem entry lists at most as many notes at
    an easier tier as at a harder one: the thinner runs on the quantised
    output of the loader, which is in time order. *)
Lemma build_stem_tiers_ordered (stems stems' : gmap string StemEntry)
    (stem : string) :
  (0 < bpm_arg)%Q ->
  stem_step stems stem = Ok stems' ->
  map_Forall (fun _ entry => tiers_ordered entry) stems ->
  map_Forall (fun _ entry => tiers_ordered entry) stems'.
Proof.
  intros Hbpm. unfold build_stem.
  destruct (path_exists _ _ _); cbn [negb]; [|by intros [= <-]].
  destruct (load_midi_notes _ _ _) as [all_notes|] eqn:Hload; [|done]. cbn.
  rewrite truediv_nonzero by lra. cbn.
  destruct (quantize_notes_to_grid _ _) as [quantized|] eqn:Hq; [|done]. cbn.
  intros [= <-] Hall. apply map_Forall_insert_2; [|done].
  unfold tiers_ordered. cbn. rewrite !length_map.
  apply thin_three_passes_ordered.
  apply (quantize_time_sorted all_notes quantized (60000 / bpm_arg / 4)).
  - apply Qlt_shift_div_l; [done|]. apply Qlt_shift_div_l; [done|]. lra.
  - by apply load_midi_notes_sorted in Hload.
  - done.
Qed.

Lemma build_chart_tiers_ordered (chart : BuildChart.Chart) :
  (0 < bpm_arg)%Q -> build = Ok chart ->
  map_Forall (fun _ entry => tiers_ordered entry) (stems chart).
Proof.
  intros Hbpm Hbuild. apply build_chart_stems in Hbuild as [Hloop _].
  revert Hloop. generalize (stems chart) as final.
  assert (Hinit : map_Forall (fun _ entry => tiers_ordered entry)
                    (∅ : gmap string StemEntry)) by apply map_Forall_empty.
  revert Hinit. generalize (∅ : gmap string StemEntry) as stems0.
  induction stem_names as [|stem rest IH]; intros stems0 Hinit final.
  - by intros [= <-].
  - cbn [build_stems].
    destruct (stem_step stems0 stem) as [stems1|] eqn:E; [|done]. cbn.
    apply IH. by apply (build_stem_tiers_ordered stems0 stems1 stem).
Qed.

End Build.

(** The loader on the sample file gives the sample events. *)
Example sample_load :
  match load_midi_notes string Sample.drums_only "midi/Song_Name_drums.mid" with
  | Ok all_notes => map to_dict all_notes
  | Raise _ => []
  end = map to_dict Sample.events.
Proof. reflexivity. Qed.

Lemma sample_build_120 :
  Sample.build Sample.drums_only 120 =
  Ok (Sample.chart 120 {[ "drums"%string := Sample.drums_entry ]}).
Proof. vm_compute. reflexivity. Qed.

Lemma sample_drums_present :
  path_exists string Sample.drums_only
    (midi_path string Sample.joinpath "Song Name" "midi" "drums") = true.
Proof. reflexivity. Qed.

(** A build without any stem source does not look at the tempo. *)
Lemma zero_bpm_without_stems_builds_chart :
  Sample.build Sample.no_files 0 = Ok (Sample.chart 0 ∅).
Proof. reflexivity. Qed.

(** C7, as stated, fails: a build with the non-positive tempo -120 and a
    drums source returns normally (exit status 0) and writes the document;
    the grid is -125 ms and the notes are quantised on it. *)
Lemma negative_bpm_builds_chart :
  (-120 <= 0)%Q /\
  Sample.build Sample.drums_only (-120) =
    Ok (Sample.chart (-120) {[ "drums"%string := Sample.drums_entry ]}) /\
  exit_status (Sample.build Sample.drums_only (-120)) = 0.
Proof. split; [done|]. split; vm_compute; reflexivity. Qed.

(** C7, amended.  A build with tempo zero and at least one stem source
    present raises before the document is assembled: nothing is written and
    the exit status is 1. *)
Theorem zero_bpm_with_stem_fails (Path : Type) (joinpath : Path -> string -> Path)
    (str : Path -> string) (fs : Path -> option PrettyMidi.file)
    (track_id song_name artist_name : string) (bpm_arg : Q) (midi_dir : Path) :
  (bpm_arg == 0)%Q ->
  (exists stem, stem ∈ stem_names /\
     path_exists Path fs (midi_path Path joinpath song_name midi_dir stem) = true) ->
  exists e,
    build_chart_for_song Path joinpath str fs track_id song_name artist_name
      bpm_arg midi_dir = Raise e /\
    exit_status
      (build_chart_for_song Path joinpath str fs track_id song_name artist_name
         bpm_arg midi_dir) = 1.
Proof.
  intros Hz Hstem. unfold build_chart_for_song.
  destruct (build_stems_zero_bpm Path joinpath str fs song_name bpm_arg midi_dir
              stem_names ∅ Hz Hstem) as [e ->].
  by exists e.
Qed.

Lemma zero_bpm_with_stem_fails_witness :
  (0 == 0)%Q /\
  path_exists string Sample.drums_only
    (midi_path string Sample.joinpath "Song Name" "midi" "drums") = true /\
  exists e,
    Sample.build Sample.drums_only 0 = Raise e /\
    exit_status (Sample.build Sample.drums_only 0) = 1.
Proof.
  split; [reflexivity|]. split; [reflexivity|].
  apply (zero_bpm_with_stem_fails string Sample.joinpath Sample.str
           Sample.drums_only).
  - reflexivity.
  - exists "drums"%string. split; [|reflexivity].
    apply list_elem_of_further, list_elem_of_here.
Defined.

(** C9.  In the document of a multi-stem build the keys of [stems] are
    exactly the stems, among melody, drums and vocals, whose source file
    exists; a stem without source file has no entry at all; and when only
    the drums file exists, "drums" is the one key. *)
Theorem missing_stem_skipped (Path : Type) (joinpath : Path -> string -> Path)
    (str : Path -> string) (fs : Path -> option PrettyMidi.file)
    (track_id song_name artist_name : string) (bpm_arg : Q) (midi_dir : Path)
    (chart : BuildChart.Chart) :
  build_chart_for_song Path joinpath str fs track_id song_name artist_name
    bpm_arg midi_dir = Ok chart ->
  let present stem :=
    path_exists Path fs (midi_path Path joinpath song_name midi_dir stem) in
  (forall stem : string,
     is_Some (stems chart !! stem) <-> stem ∈ stem_names /\ present stem = true) /\
  (forall stem : string, present stem = false -> stems chart !! stem = None) /\
  (present "drums"%string = true -> present "melody"%string = false ->
   present "vocals"%string = false ->
   dom (stems chart) = {[ "drums"%string ]}).
Proof.
  intros Hbuild present.
  apply build_chart_stems in Hbuild as [Hloop _].
  assert (Hkeys : forall stem : string,
    is_Some (stems chart !! stem) <-> stem ∈ stem_names /\ present stem = true).
  { intros stem. rewrite (build_stems_keys _ _ _ _ _ _ _ _ _ _ _ Hloop).
    rewrite lookup_empty. split; [|by right].
    intros [H|H]; [by destruct H|done]. }
  split; [exact Hkeys|]. split.
  - intros stem Habs. apply eq_None_not_Some. rewrite Hkeys.
    intros [_ H]. congruence.
  - intros Hd Hm Hv. apply set_eq. intros stem.
    rewrite elem_of_dom, Hkeys, elem_of_singleton. unfold stem_names.
    rewrite !elem_of_cons, elem_of_nil. split.
    + intros [[->|[->|[->|[]]]] H]; congruence.
    + intros ->. auto.
Qed.

Lemma missing_stem_skipped_witness :
  let chart := Sample.chart 120 {[ "drums"%string := Sample.drums_entry ]} in
  let present stem :=
    path_exists string Sample.drums_only
      (midi_path string Sample.joinpath "Song Name" "midi" stem) in
  Sample.build Sample.drums_only 120 = Ok chart /\
  (forall stem : string,
     is_Some (stems chart !! stem) <-> stem ∈ stem_names /\ present stem = true) /\
  (forall stem : string, present stem = false -> stems chart !! stem = None) /\
  (present "drums"%string = true -> present "melody"%string = false ->
   present "vocals"%string = false ->
   dom (stems chart) = {[ "drums"%string ]}).
Proof.
  split; [exact sample_build_120|].
  exact (missing_stem_skipped string Sample.joinpath Sample.str
           Sample.drums_only "local:0:SongName" "Song Name" "vx9" 120 "midi"
           _ sample_build_120).
Defined.

(** C10.  Every document the multi-stem builder produces has
    [audioOffsetMs] 0, whatever the track id, song name, artist, tempo,
    directory and files are; the builder has no offset argument. *)
Theorem audio_offset_always_zero (Path : Type) (joinpath : Path -> string -> Path)
    (str : Path -> string) (fs : Path -> option PrettyMidi.file)
    (track_id song_name artist_name : string) (bpm_arg : Q) (midi_dir : Path)
    (chart : BuildChart.Chart) :
  build_chart_for_song Path joinpath str fs track_id song_name artist_name
    bpm_arg midi_dir = Ok chart ->
  audioOffsetMs chart = 0.
Proof. intros Hbuild. by apply build_chart_stems in Hbuild as [_ H]. Qed.

Lemma audio_offset_always_zero_witness :
  let chart := Sample.chart 120 {[ "drums"%string := Sample.drums_entry ]} in
  Sample.build Sample.drums_only 120 = Ok chart /\ audioOffsetMs chart = 0.
Proof.
  split; [exact sample_build_120|].
  exact (audio_offset_always_zero string Sample.joinpath Sample.str
           Sample.drums_only "local:0:SongName" "Song Name" "vx9" 120 "midi"
           _ sample_build_120).
Defined.

(** * Further properties of the two tools *)

(** ** Thinning: fixed points, order, the first note of a lane *)

Section ThinningMore.

Variable difficulty : Difficulty.
Variable min_gap : Q.

Local Abbreviation thin := (thin_loop difficulty min_gap).

(** A second pass from the same table keeps what the first pass kept. *)
Lemma thin_loop_fixed (notes : list NoteEvent) (last : gmap Z Q) :
  thin (thin notes [] last) [] last = thin notes [] last.
Proof.
  revert last. induction notes as [|n rest IH]; intros last; [done|].
  rewrite thin_loop_cons.
  destruct (lt _ _ && _) eqn:E; [apply IH|].
  rewrite thin_loop_cons, E. f_equal. apply IH.
Qed.

(** With a gap that is not positive, and a table that is not ahead of the
    notes still to come, every note of a sorted input passes the test. *)
Lemma thin_loop_nonpositive_gap (notes : list NoteEvent) (last : gmap Z Q) :
  (min_gap <= 0)%Q ->
  time_sorted notes ->
  (forall k, Forall (fun n => (default no_last_time (last !! k)
                               <= time_ms n)%Q) notes) ->
  thin notes [] last = notes.
Proof.
  intros Hgap. revert last.
  induction notes as [|n rest IH]; intros last Hsorted Hlast; [done|].
  destruct Hsorted as [Hn Hrest].
  rewrite thin_loop_cons.
  assert (Hkeep : lt (time_ms n - default no_last_time (last !! lane n))
                     min_gap = false).
  { apply lt_false. specialize (Hlast (lane n)).
    apply Forall_cons in Hlast as [Hlast _]. lra. }
  rewrite Hkeep. cbn [andb]. f_equal. apply IH; [done|].
  intros k. destruct (decide (lane n = k)) as [<-|Hne].
  - by rewrite lookup_insert_eq.
  - rewrite lookup_insert_ne by done.
    specialize (Hlast k). by apply Forall_cons in Hlast as [_ Hlast].
Qed.

End ThinningMore.

Lemma Forall_of_sublist {A : Type} (P : A -> Prop) (l l' : list A) :
  l `sublist_of` l' -> Forall P l' -> Forall P l.
Proof.
  induction 1 as [|a l l' Hsub IH|a l l' Hsub IH]; [done| |].
  - intros [Ha Hl']%Forall_cons. constructor; [done|by apply IH].
  - intros [_ Hl']%Forall_cons. by apply IH.
Qed.

Lemma time_sorted_sublist (l l' : list NoteEvent) :
  l `sublist_of` l' -> time_sorted l' -> time_sorted l.
Proof.
  induction 1 as [|a l l' Hsub IH|a l l' Hsub IH]; [done| |].
  - intros [Ha Hl']. split; [|by apply IH].
    by apply (Forall_of_sublist _ l l').
  - intros [_ Hl']. by apply IH.
Qed.

(** X1.  Thinning is idempotent at every tier: thinning an already thinned
    sequence again, with the same tier and spacings, returns it unchanged. *)
Theorem thin_idempotent (notes : list NoteEvent) (d : Difficulty)
    (sp_easy sp_normal sp_expert : Q) :
  thin_notes_for_difficulty
    (thin_notes_for_difficulty notes d sp_easy sp_normal sp_expert)
    d sp_easy sp_normal sp_expert =
  thin_notes_for_difficulty notes d sp_easy sp_normal sp_expert.
Proof. unfold thin_notes_for_difficulty. apply thin_loop_fixed. Qed.

(** X2.  Thinning keeps the time order: the output of a time-sorted input is
    time-sorted, at every tier. *)
Theorem thin_time_sorted (notes : list NoteEvent) (d : Difficulty)
    (sp_easy sp_normal sp_expert : Q) :
  time_sorted notes ->
  time_sorted (thin_notes_for_difficulty notes d sp_easy sp_normal sp_expert).
Proof.
  apply time_sorted_sublist. unfold thin_notes_for_difficulty.
  apply thin_loop_sublist.
Qed.

Lemma thin_time_sorted_witness :
  time_sorted Sample.events /\
  time_sorted (thin_notes_for_difficulty Sample.events easy
                 260 default_spacing_normal default_spacing_expert).
Proof.
  split; [exact sample_events_sorted|].
  apply thin_time_sorted, sample_events_sorted.
Defined.

(** X3.  A minimum gap that is zero or negative drops nothing: on a
    time-sorted input whose times are not below the initial last time -1e9,
    every tier returns the whole input. *)
Theorem thin_nonpositive_gap_keeps_all (notes : list NoteEvent) (d : Difficulty)
    (sp_easy sp_normal sp_expert : Q) :
  (min_gap_of d sp_easy sp_normal sp_expert <= 0)%Q ->
  time_sorted notes ->
  Forall (fun n => (no_last_time <= time_ms n)%Q) notes ->
  thin_notes_for_difficulty notes d sp_easy sp_normal sp_expert = notes.
Proof.
  intros Hgap Hsorted Hlow. unfold thin_notes_for_difficulty.
  apply thin_loop_nonpositive_gap; [done|done|].
  intros k. by rewrite lookup_empty.
Qed.

Lemma thin_nonpositive_gap_keeps_all_witness :
  (min_gap_of easy 0 default_spacing_normal default_spacing_expert <= 0)%Q /\
  time_sorted Sample.events /\
  Forall (fun n => (no_last_time <= time_ms n)%Q) Sample.events /\
  thin_notes_for_difficulty Sample.events easy
    0 default_spacing_normal default_spacing_expert = Sample.events.
Proof.
  assert (Hgap : (min_gap_of easy 0 default_spacing_normal
                    default_spacing_expert <= 0)%Q) by (cbn; lra).
  assert (Hlow : Forall (fun n => (no_last_time <= time_ms n)%Q) Sample.events).
  { repeat constructor; cbn; unfold no_last_time; lra. }
  split; [exact Hgap|]. split; [exact sample_events_sorted|].
  split; [exact Hlow|].
  exact (thin_nonpositive_gap_keeps_all Sample.events easy 0
           default_spacing_normal default_spacing_expert
           Hgap sample_events_sorted Hlow).
Defined.

(** X4.  The first note of a lane is kept whenever it lies at least the
    minimum gap after the initial last time -1e9, whatever precedes it on
    other lanes; it is then the first kept note of its lane. *)
Theorem thin_keeps_first_of_lane (notes : list NoteEvent) (d : Difficulty)
    (sp_easy sp_normal sp_expert : Q) (k : Z) (n : NoteEvent) :
  head (on_lane k notes) = Some n ->
  (min_gap_of d sp_easy sp_normal sp_expert <= time_ms n - no_last_time)%Q ->
  head (on_lane k
          (thin_notes_for_difficulty notes d sp_easy sp_normal sp_expert))
  = Some n.
Proof.
  intros Hhead Hgap. unfold thin_notes_for_difficulty.
  rewrite (thin_loop_on_lane _ _ k notes ∅ ∅ eq_refl).
  destruct (on_lane k notes) as [|m rest]; [done|].
  injection Hhead as ->.
  rewrite thin_loop_cons, lookup_empty. cbn [default].
  apply lt_false in Hgap. by rewrite Hgap.
Qed.

Lemma thin_keeps_first_of_lane_witness :
  head (on_lane 2 Sample.events) = Some (mkNoteEvent 500 500 65 2) /\
  (min_gap_of easy 260 default_spacing_normal default_spacing_expert
   <= 500 - no_last_time)%Q /\
  head (on_lane 2
          (thin_notes_for_difficulty Sample.events easy
             260 default_spacing_normal default_spacing_expert))
  = Some (mkNoteEvent 500 500 65 2).
Proof.
  assert (Hgap : (min_gap_of easy 260 default_spacing_normal
                    default_spacing_expert
                  <= time_ms (mkNoteEvent 500 500 65 2) - no_last_time)%Q).
  { cbn. unfold no_last_time. lra. }
  split; [reflexivity|]. split; [exact Hgap|].
  exact (thin_keeps_first_of_lane Sample.events easy 260
           default_spacing_normal default_spacing_expert 2 _ eq_refl Hgap).
Defined.

(** A pass in which the test of the loop succeeds for every note returns
    nothing. *)
Lemma ieee_thin_loop_all_dropped (d : Difficulty) (g : float)
    (notes : list IEEE.NoteEvent) (last : gmap Z float) :
  drops_on_violation d = true ->
  Forall (fun n =>
    (IEEE.time_ms n - default IEEE.no_last_time (last !! IEEE.lane n)
     <? g)%float = true) notes ->
  IEEE.thin_loop d g notes [] last = [].
Proof.
  intros Hdrop Hall. induction Hall as [|n rest Hn _ IH]; [done|].
  by rewrite ieee_thin_loop_cons, Hdrop, andb_true_r, Hn.
Qed.

(** X5.  The initial last time is the finite value -1e9, not minus infinity:
    at the easy and normal tiers an input is dropped entirely when for each
    of its notes the test of the loop against -1e9 succeeds, that is, when
    the double nearest to the time plus 1e9 is below the minimum gap. *)
Theorem thin_drops_all_below_initial_gap (notes : list IEEE.NoteEvent)
    (d : Difficulty) (sp_easy sp_normal sp_expert : float) :
  d <> expert ->
  Forall (fun n =>
    (IEEE.time_ms n - IEEE.no_last_time
     <? IEEE.min_gap_of d sp_easy sp_normal sp_expert)%float = true) notes ->
  IEEE.thin_notes_for_difficulty notes d sp_easy sp_normal sp_expert = [].
Proof.
  intros Hd Hall. unfold IEEE.thin_notes_for_difficulty.
  apply ieee_thin_loop_all_dropped; [by apply drops_on_violation_true|].
  eapply Forall_impl; [exact Hall|].
  intros n Hn. by rewrite lookup_empty.
Qed.

Lemma thin_drops_all_below_initial_gap_witness :
  easy <> expert /\
  Forall (fun n =>
    (IEEE.time_ms n - IEEE.no_last_time
     <? IEEE.min_gap_of easy 2000000000 160 80)%float = true)
    Sample.events64 /\
  IEEE.thin_notes_for_difficulty Sample.events64 easy 2000000000 160 80 = [].
Proof.
  assert (Hall : Forall (fun n =>
    (IEEE.time_ms n - IEEE.no_last_time
     <? IEEE.min_gap_of easy 2000000000 160 80)%float = true)
    Sample.events64).
  { repeat constructor. }
  split; [discriminate|]. split; [exact Hall|].
  apply (thin_drops_all_below_initial_gap Sample.events64 easy
           2000000000 160 80); [discriminate|].
  exact Hall.
Defined.

(** A note at 999999999.99999988 ms lies less than 2e9 ms after -1e9, and
    the double nearest to the sum is 2e9: with minimum gap 2e9 the easy tier
    keeps it. *)
Example thin_keeps_note_at_rounded_gap :
  let n := IEEE.mkNoteEvent 0x1.dcd64ffffffffp+29 10 40 0 in
  (Float64.value (IEEE.time_ms n) - Float64.value IEEE.no_last_time
   < Float64.value 2000000000)%Q /\
  (IEEE.time_ms n - IEEE.no_last_time)%float = 2000000000%float /\
  IEEE.thin_notes_for_difficulty [n] easy 2000000000 160 80 = [n].
Proof. repeat split; vm_compute; reflexivity. Qed.

(** X6.  The tiers are not nested: there is a time-sorted input (one lane,
    notes at 0, 150 and 260 ms) whose easy pass keeps a note that its normal
    pass drops, so the easy output is no sub-sequence of the normal one. *)
Theorem thin_easy_not_within_normal :
  ~ (forall notes : list NoteEvent,
       time_sorted notes ->
       thin_notes_for_difficulty notes easy
         260 default_spacing_normal default_spacing_expert
       `sublist_of`
       thin_notes_for_difficulty notes normal
         default_spacing_easy 150 default_spacing_expert).
Proof.
  intros H.
  specialize (H [ mkNoteEvent 0 10 40 0; mkNoteEvent 150 10 40 0;
                  mkNoteEvent 260 10 40 0 ]).
  assert (Hsorted : time_sorted [ mkNoteEvent 0 10 40 0;
            mkNoteEvent 150 10 40 0; mkNoteEvent 260 10 40 0 ]).
  { cbn [time_sorted]. repeat split; repeat constructor; cbn; lra. }
  specialize (H Hsorted).
  change ([ mkNoteEvent 0 10 40 0; mkNoteEvent 260 10 40 0 ]
          `sublist_of`
          [ mkNoteEvent 0 10 40 0; mkNoteEvent 150 10 40 0 ]) in H.
  assert (Hin : mkNoteEvent 260 10 40 0
                ∈ [ mkNoteEvent 0 10 40 0; mkNoteEvent 150 10 40 0 ]).
  { assert (Hall : Forall (fun x => x ∈ [ mkNoteEvent 0 10 40 0;
                                           mkNoteEvent 150 10 40 0 ])
                     [ mkNoteEvent 0 10 40 0; mkNoteEvent 260 10 40 0 ]).
    { apply (Forall_of_sublist _ _ _ H), Forall_forall. auto. }
    apply Forall_cons in Hall as [_ Hall].
    by apply Forall_cons in Hall as [Hall _]. }
  apply elem_of_cons in Hin as [Hin|Hin]; [discriminate Hin|].
  apply elem_of_cons in Hin as [Hin|Hin]; [discriminate Hin|].
  by apply elem_of_nil in Hin.
Qed.

(** ** Quantisation: order and sign of the grid *)

Lemma floor_bounds (x : Q) :
  (inject_Z (Qfloor x) <= x < inject_Z (Qfloor x) + 1)%Q.
Proof.
  split; [apply Qfloor_le|].
  pose proof (Qlt_floor x) as H. by rewrite inject_Z_plus in H.
Qed.

Lemma floor_unique (x : Q) (m : Z) :
  (inject_Z m <= x < inject_Z m + 1)%Q -> Qfloor x = m.
Proof.
  intros [Hlo Hhi]. destruct (floor_bounds x) as [Hlo' Hhi'].
  assert (H1 : (inject_Z m < inject_Z (Qfloor x + 1))%Q)
    by (rewrite inject_Z_plus; change (inject_Z 1) with 1%Q; lra).
  assert (H2 : (inject_Z (Qfloor x) < inject_Z (m + 1))%Q)
    by (rewrite inject_Z_plus; change (inject_Z 1) with 1%Q; lra).
  rewrite <- Zlt_Qlt in H1, H2. lia.
Qed.

(** [round] is within one half of its argument. *)
Lemma round_half_bound (x : Q) :
  (- (1 # 2) <= inject_Z (round x) - x <= 1 # 2)%Q.
Proof.
  destruct (floor_bounds x) as [Hlo Hhi]. unfold round.
  destruct (Qcompare_spec (x - inject_Z (Qfloor x)) (1 # 2)) as [H|H|H];
    [destruct (Z.even _)| |];
    rewrite ?inject_Z_plus; change (inject_Z 1) with 1%Q; lra.
Qed.

(** [round] is odd: halves go to the even neighbour on both sides of 0. *)
Lemma round_opp (x : Q) : round (- x) = - round x.
Proof.
  destruct (floor_bounds x) as [Hlo Hhi].
  destruct (Qeq_dec x (inject_Z (Qfloor x))) as [Hint|Hfrac].
  - rewrite (round_comp x _ Hint), round_inject_Z.
    rewrite (round_comp (- x) (inject_Z (- Qfloor x))).
    + apply round_inject_Z.
    + rewrite inject_Z_opp. by rewrite <- Hint.
  - assert (Hf : Qfloor (- x) = - Qfloor x - 1).
    { apply floor_unique. unfold Z.sub.
      rewrite inject_Z_plus, !inject_Z_opp. change (inject_Z 1) with 1%Q.
      split; [lra|].
      assert (inject_Z (Qfloor x) < x)%Q; [|lra].
      apply Qle_lteq in Hlo as [Hlo|Hlo]; [done|]. by destruct Hfrac. }
    unfold round. rewrite Hf.
    assert (He : Z.even (- Qfloor x - 1) = negb (Z.even (Qfloor x))).
    { rewrite Z.even_sub, Z.even_opp. by destruct (Z.even (Qfloor x)). }
    rewrite He.
    destruct (Qcompare_spec (x - inject_Z (Qfloor x)) (1 # 2)) as [H|H|H];
      destruct (Qcompare_spec (- x - inject_Z (- Qfloor x - 1)) (1 # 2))
        as [H'|H'|H'];
      unfold Z.sub in H'; rewrite inject_Z_plus, !inject_Z_opp in H';
      change (inject_Z 1) with 1%Q in H';
      try (exfalso; lra); try destruct (Z.even (Qfloor x)); cbn [negb]; lia.
Qed.

Lemma quantized_notes_time_sorted (notes : list NoteEvent) (g : Q) :
  ~ (g == 0)%Q -> time_sorted notes ->
  time_sorted (map (quantized_note g) notes).
Proof.
  intros Hg Hsorted.
  destruct (Qlt_le_dec 0 g) as [Hpos|Hneg].
  { apply (quantize_time_sorted notes _ g); [done|done|].
    by apply quantize_nonzero_map. }
  assert (Hlt : (g < 0)%Q).
  { apply Qle_lteq in Hneg as [H|H]; [done|by destruct Hg]. }
  clear Hneg Hg. induction notes as [|a rest IH]; [done|].
  destruct Hsorted as [Ha Hrest]. split; [|by apply IH].
  apply Forall_map. eapply Forall_impl; [exact Ha|].
  intros b Hb. cbn [quantized_note time_ms] in *.
  assert (Hdiv : (time_ms b / g <= time_ms a / g)%Q).
  { assert (Hinv : (0 < / - g)%Q) by (apply Qinv_lt_0_compat; lra).
    assert (H : (time_ms a * / - g <= time_ms b * / - g)%Q)
      by (apply Qmult_le_compat_r; lra).
    assert (Ha' : (time_ms a / g == - (time_ms a * / - g))%Q) by (field; lra).
    assert (Hb' : (time_ms b / g == - (time_ms b * / - g))%Q) by (field; lra).
    lra. }
  apply round_mono in Hdiv. rewrite Zle_Qle in Hdiv.
  assert (H : (inject_Z (round (time_ms b / g)) * - g
               <= inject_Z (round (time_ms a / g)) * - g)%Q)
    by (apply Qmult_le_compat_r; lra).
  lra.
Qed.

(** X10.  Quantisation keeps the time order on every non-zero grid, of
    either sign: the quantised notes of a time-sorted input are
    time-sorted. *)
Theorem quantize_keeps_time_order (notes quantized : list NoteEvent) (g : Q) :
  ~ (g == 0)%Q -> time_sorted notes ->
  quantize_notes_to_grid notes g = Ok quantized -> time_sorted quantized.
Proof.
  intros Hg Hsorted. rewrite quantize_nonzero_map by done. intros [= <-].
  by apply quantized_notes_time_sorted.
Qed.

Lemma quantize_keeps_time_order_witness :
  ~ (-125 == 0)%Q /\ time_sorted Sample.events /\
  quantize_notes_to_grid Sample.events (-125)
    = Ok (map (quantized_note (-125)) Sample.events) /\
  time_sorted (map (quantized_note (-125)) Sample.events).
Proof.
  assert (Hg : ~ (-125 == 0)%Q) by discriminate.
  split; [exact Hg|]. split; [exact sample_events_sorted|].
  split; [reflexivity|].
  exact (quantize_keeps_time_order Sample.events _ (-125) Hg
           sample_events_sorted eq_refl).
Defined.

(** A grid and its opposite give the same quantised time. *)
Lemma quantized_note_opp (g g' : Q) (n : NoteEvent) :
  ~ (g == 0)%Q -> (g' == - g)%Q ->
  (time_ms (quantized_note g n) == time_ms (quantized_note g' n))%Q.
Proof.
  intros Hg Hg'. cbn [quantized_note time_ms].
  rewrite (round_comp (time_ms n / g') (- (time_ms n / g))).
  - rewrite round_opp, inject_Z_opp, Hg'. ring.
  - rewrite Hg'. field. lra.
Qed.

(** X11.  The sign of the grid does not matter: quantising with [- g] gives,
    note by note, the same times as quantising with [g] (as numbers), hence
    the same JSON notes. *)
Theorem quantize_grid_sign_irrelevant (notes pos neg : list NoteEvent) (g : Q) :
  ~ (g == 0)%Q ->
  quantize_notes_to_grid notes g = Ok pos ->
  quantize_notes_to_grid notes (- g) = Ok neg ->
  Forall2 (fun n n' => (time_ms n == time_ms n')%Q) pos neg /\
  map to_dict neg = map to_dict pos.
Proof.
  intros Hg. rewrite !quantize_nonzero_map by lra.
  intros [= <-] [= <-].
  assert (Htime : forall n,
    (time_ms (quantized_note g n) == time_ms (quantized_note (- g) n))%Q).
  { intros n. by apply quantized_note_opp. }
  split.
  - induction notes as [|n rest IH]; constructor; [apply Htime|exact IH].
  - rewrite !map_map. apply map_ext. intros n. unfold to_dict.
    by rewrite (round_comp _ _ (Htime n)).
Qed.

Lemma quantize_grid_sign_irrelevant_witness :
  ~ (125 == 0)%Q /\
  quantize_notes_to_grid Sample.events 125
    = Ok (map (quantized_note 125) Sample.events) /\
  quantize_notes_to_grid Sample.events (- 125)
    = Ok (map (quantized_note (- 125)) Sample.events) /\
  map to_dict (map (quantized_note (- 125)) Sample.events)
  = map to_dict (map (quantized_note 125) Sample.events).
Proof.
  assert (Hg : ~ (125 == 0)%Q) by discriminate.
  split; [exact Hg|]. split; [reflexivity|]. split; [reflexivity|].
  exact (proj2 (quantize_grid_sign_irrelevant Sample.events _ _ 125 Hg
                  eq_refl eq_refl)).
Defined.

(** ** Quantisation on binary64 times *)

Lemma ieee_quantize_note_Ok (g : float) (n m : IEEE.NoteEvent) :
  IEEE.quantize_note g n = Ok m ->
  exists (k : Z) (kf : float),
    Float64.round (IEEE.time_ms n / g)%float = Ok k /\
    Float64.of_int k = Ok kf /\
    m = IEEE.mkNoteEvent (kf * g)%float (IEEE.duration_ms n)
          (IEEE.pitch n) (IEEE.lane n).
Proof.
  unfold IEEE.quantize_note. cbn zeta.
  destruct (Float64.round _) as [k|] eqn:Hk; [|done]. cbn.
  destruct (Float64.of_int k) as [kf|] eqn:Hkf; [|done]. cbn.
  intros [= <-]. by exists k, kf.
Qed.

Lemma ieee_quantize_cons_Ok (g : float) (n : IEEE.NoteEvent)
    (rest quantized : list IEEE.NoteEvent) :
  IEEE.quantize_notes_to_grid (n :: rest) g = Ok quantized ->
  exists m rest',
    IEEE.quantize_note g n = Ok m /\
    IEEE.quantize_notes_to_grid rest g = Ok rest' /\
    quantized = m :: rest'.
Proof.
  cbn [IEEE.quantize_notes_to_grid].
  destruct (IEEE.quantize_note g n) as [m|]; [|done]. cbn.
  destruct (IEEE.quantize_notes_to_grid rest g) as [rest'|]; [|done]. cbn.
  intros [= <-]. by exists m, rest'.
Qed.

(** X8.  Quantisation rewrites start times only: when the pass returns, the
    result has the length of the input and the same durations, pitches and
    lanes in the same positions, and the time of each note is the double
    nearest to the product of the grid with a whole number of steps, the
    rounded quotient of the old time by the grid. *)
Theorem quantize_changes_times_only (notes quantized : list IEEE.NoteEvent)
    (g : float) :
  IEEE.quantize_notes_to_grid notes g = Ok quantized ->
  length quantized = length notes /\
  map IEEE.duration_ms quantized = map IEEE.duration_ms notes /\
  map IEEE.pitch quantized = map IEEE.pitch notes /\
  map IEEE.lane quantized = map IEEE.lane notes /\
  forall (i : nat) (n : IEEE.NoteEvent),
    notes !! i = Some n ->
    exists (m : IEEE.NoteEvent) (k : Z) (kf : float),
      quantized !! i = Some m /\
      Float64.round (IEEE.time_ms n / g)%float = Ok k /\
      Float64.of_int k = Ok kf /\
      IEEE.time_ms m = (kf * g)%float.
Proof.
  revert quantized. induction notes as [|n rest IH]; intros quantized Hq.
  - injection Hq as <-. repeat split. intros i n Hn. done.
  - apply ieee_quantize_cons_Ok in Hq as (m & rest' & Hm & Hrest & ->).
    destruct (IH rest' Hrest) as (Hlen & Hdur & Hpitch & Hlane & Htime).
    apply ieee_quantize_note_Ok in Hm as (k & kf & Hk & Hkf & ->).
    cbn. rewrite Hlen, Hdur, Hpitch, Hlane. repeat split.
    intros [|i] n' Hn'.
    + injection Hn' as <-. eexists _, k, kf. by repeat split.
    + by apply Htime.
Qed.

Lemma quantize_changes_times_only_witness :
  let quantized :=
    [ IEEE.mkNoteEvent 0 50 40 0; IEEE.mkNoteEvent 125 110 40 0;
      IEEE.mkNoteEvent 500 500 65 2; IEEE.mkNoteEvent 625 100 40 0 ] in
  IEEE.quantize_notes_to_grid Sample.events64 125 = Ok quantized /\
  length quantized = length Sample.events64 /\
  map IEEE.duration_ms quantized = map IEEE.duration_ms Sample.events64 /\
  map IEEE.pitch quantized = map IEEE.pitch Sample.events64 /\
  map IEEE.lane quantized = map IEEE.lane Sample.events64 /\
  forall (i : nat) (n : IEEE.NoteEvent),
    Sample.events64 !! i = Some n ->
    exists (m : IEEE.NoteEvent) (k : Z) (kf : float),
      quantized !! i = Some m /\
      Float64.round (IEEE.time_ms n / 125)%float = Ok k /\
      Float64.of_int k = Ok kf /\
      IEEE.time_ms m = (kf * 125)%float.
Proof.
  assert (H : IEEE.quantize_notes_to_grid Sample.events64 125 =
    Ok [ IEEE.mkNoteEvent 0 50 40 0; IEEE.mkNoteEvent 125 110 40 0;
         IEEE.mkNoteEvent 500 500 65 2; IEEE.mkNoteEvent 625 100 40 0 ])
    by (vm_compute; reflexivity).
  split; [exact H|].
  exact (quantize_changes_times_only Sample.events64 _ 125 H).
Defined.

(** At tempo 225 the grid is the double 66.666666666666671.  The quotient
    of 500 ms by it is the double just below 7.5, so the note moves to step
    7, at 466.66666666666669 ms; the quotient of 100 ms is 1.5, a tie, and
    the note moves to step 2. *)
Example quantize_at_tempo_225 :
  let grid_ms := (60000 / 225 / 4)%float in
  grid_ms = 0x1.0aaaaaaaaaaabp+6%float /\
  IEEE.quantize_note grid_ms (IEEE.mkNoteEvent 500 10 40 0)
    = Ok (IEEE.mkNoteEvent 0x1.d2aaaaaaaaaabp+8 10 40 0) /\
  IEEE.quantize_note grid_ms (IEEE.mkNoteEvent 100 10 40 0)
    = Ok (IEEE.mkNoteEvent 0x1.0aaaaaaaaaaabp+7 10 40 0).
Proof. repeat split; vm_compute; reflexivity. Qed.

(** A pass with a positive grid can raise, and it can return a time on
    which a second pass raises: the quotient of 2^1000 by 2^-1000 is
    infinite; 1.98 * 2^1023 is 4.71 steps of the grid 1.68 * 2^1021, and
    five steps are beyond the largest double. *)
Example quantize_overflows :
  IEEE.quantize_note 0x1p-1000 (IEEE.mkNoteEvent 0x1p+1000 10 40 0)
    = Raise OverflowError /\
  IEEE.quantize_note 0x1.af06658c9e79ep+1021
    (IEEE.mkNoteEvent 0x1.fbd5b19c07d2p+1023 10 40 0)
    = Ok (IEEE.mkNoteEvent infinity 10 40 0) /\
  IEEE.quantize_note 0x1.af06658c9e79ep+1021
    (IEEE.mkNoteEvent infinity 10 40 0)
    = Raise OverflowError.
Proof. repeat split; vm_compute; reflexivity. Qed.

(** With a zero grid the quotient is an infinity, or a NaN for a note at
    0 ms. *)
Example quantize_zero_grid :
  IEEE.quantize_note 0 (IEEE.mkNoteEvent 500 10 40 0) = Raise OverflowError /\
  IEEE.quantize_note 0 (IEEE.mkNoteEvent 0 10 40 0) = Raise ValueError.
Proof. repeat split; vm_compute; reflexivity. Qed.

(** On the sample a second pass over the 125 ms grid changes nothing. *)
Example quantize_sample_twice :
  let once :=
    [ IEEE.mkNoteEvent 0 50 40 0; IEEE.mkNoteEvent 125 110 40 0;
      IEEE.mkNoteEvent 500 500 65 2; IEEE.mkNoteEvent 625 100 40 0 ] in
  IEEE.quantize_notes_to_grid Sample.events64 125 = Ok once /\
  IEEE.quantize_notes_to_grid once 125 = Ok once.
Proof. split; vm_compute; reflexivity. Qed.

(** ** The stable sort of both tools *)

Lemma filter_none {A : Type} (P : A -> Prop) `{!forall x, Decision (P x)}
    (l : list A) :
  Forall (fun x => ~ P x) l -> filter P l = [].
Proof.
  induction 1 as [|x l Hx _ IH]; [done|].
  by rewrite filter_cons_False.
Qed.

Section StableSort.

Context {A : Type} (leb : A -> A -> bool).
Hypothesis leb_total : forall a b, leb a b = true \/ leb b a = true.
Hypothesis leb_trans :
  forall a b c, leb a b = true -> leb b c = true -> leb a c = true.

Lemma insert_sorted_sorted (x : A) (l : list A) :
  sorted_by leb l -> sorted_by leb (insert_sorted leb x l).
Proof.
  induction l as [|y l IH]; intros Hl; [by split|].
  destruct Hl as [Hy Hl]. cbn [insert_sorted].
  destruct (leb y x) eqn:E.
  - split; [|by apply IH]. rewrite insert_sorted_perm. by constructor.
  - assert (Hxy : leb x y = true).
    { destruct (leb_total x y) as [H|H]; [done|congruence]. }
    split; [|by split]. constructor; [done|].
    eapply Forall_impl; [exact Hy|]. intros b Hb. by apply (leb_trans x y b).
Qed.

Lemma sort_sorted_from (l acc : list A) :
  sorted_by leb acc ->
  sorted_by leb (fold_left (fun acc x => insert_sorted leb x acc) l acc).
Proof.
  revert acc. induction l as [|x l IH]; intros acc Hacc; [done|].
  cbn [fold_left]. by apply IH, insert_sorted_sorted.
Qed.

(** An element goes behind the elements with its key. *)
Lemma insert_sorted_same_key (c x : A) (l : list A) :
  sorted_by leb l ->
  filter (fun y => same_key leb c y = true) (insert_sorted leb x l) =
  filter (fun y => same_key leb c y = true) l ++
  (if same_key leb c x then [x] else []).
Proof.
  induction l as [|y l IH]; intros Hl.
  - cbn [insert_sorted]. rewrite filter_cons, filter_nil.
    destruct (same_key leb c x); by case_decide.
  - destruct Hl as [Hy Hl]. cbn [insert_sorted].
    destruct (leb y x) eqn:E.
    + rewrite !(filter_cons _ y), IH by done. by case_decide.
    + rewrite (filter_cons _ x).
      destruct (same_key leb c x) eqn:Ex; case_decide; try congruence.
      * (* nothing at or behind [y] has the key of [x] *)
        assert (Hnone : filter (fun z => same_key leb c z = true) (y :: l) = []).
        { apply filter_none, Forall_forall. intros z Hz Hzc.
          unfold same_key in Ex, Hzc.
          apply andb_prop in Ex as [Hxc Hcx].
          apply andb_prop in Hzc as [Hzc Hcz].
          assert (Hyz : leb y z = true).
          { apply elem_of_cons in Hz as [Hzy|Hz].
            - rewrite Hzy. by destruct (leb_total y y).
            - by apply (proj1 (Forall_forall _ _) Hy). }
          assert (leb y x = true); [|congruence].
          apply (leb_trans y z x); [done|]. by apply (leb_trans z c x). }
        by rewrite Hnone.
      * by rewrite app_nil_r.
Qed.

Lemma sort_same_key_from (c : A) (l acc : list A) :
  sorted_by leb acc ->
  filter (fun y => same_key leb c y = true)
    (fold_left (fun acc x => insert_sorted leb x acc) l acc) =
  filter (fun y => same_key leb c y = true) acc ++
  filter (fun y => same_key leb c y = true) l.
Proof.
  revert acc. induction l as [|x l IH]; intros acc Hacc.
  - by rewrite filter_nil, app_nil_r.
  - cbn [fold_left].
    rewrite IH by (by apply insert_sorted_sorted).
    rewrite insert_sorted_same_key, (filter_cons _ x), <- app_assoc by done.
    destruct (same_key leb c x); by case_decide.
Qed.

Lemma sort_sorted (l : list A) : sorted_by leb (sort leb l).
Proof. by apply sort_sorted_from. Qed.

(** Elements with equal keys leave the sort in the order they came in. *)
Lemma sort_stable (c : A) (l : list A) :
  filter (fun y => same_key leb c y = true) (sort leb l) =
  filter (fun y => same_key leb c y = true) l.
Proof. unfold sort. by rewrite sort_same_key_from. Qed.

End StableSort.

Lemma time_leb_total (a b : NoteEvent) :
  time_leb a b = true \/ time_leb b a = true.
Proof.
  unfold time_leb. rewrite !Qle_bool_iff.
  destruct (Qlt_le_dec (time_ms b) (time_ms a)); [right|left]; lra.
Qed.

Lemma time_leb_trans (a b c : NoteEvent) :
  time_leb a b = true -> time_leb b c = true -> time_leb a c = true.
Proof. unfold time_leb. rewrite !Qle_bool_iff. lra. Qed.

Lemma time_same_key (c x : NoteEvent) :
  same_key time_leb c x = true <-> (time_ms x == time_ms c)%Q.
Proof.
  unfold same_key, time_leb. rewrite andb_true_iff, !Qle_bool_iff.
  split; [intros [H1 H2]; lra|intros H; split; lra].
Qed.

(** ** The loader *)

(** X12.  What the loader returns for a path: the file there decodes, and
    the events are its notes, every one exactly once, in ascending time
    order, each with the lane of its pitch under the bucket mapping, a lane
    between 0 and 3. *)
Theorem load_midi_notes_events (Path : Type)
    (fs : Path -> option PrettyMidi.file) (path : Path)
    (events : list NoteEvent) :
  load_midi_notes Path fs path = Ok events ->
  exists pm,
    fs path = Some (PrettyMidi.Midi pm) /\
    events ≡ₚ file_events pm /\
    length events
      = length (flat_map PrettyMidi.notes (PrettyMidi.instruments pm)) /\
    time_sorted events /\
    Forall (fun e => lane e = map_pitch_to_lane (pitch e) /\ 0 <= lane e <= 3)
      events.
Proof.
  unfold load_midi_notes, PrettyMidi.open.
  destruct (fs path) as [[pm|]|]; [|done|done]. cbn.
  intros [= <-]. exists pm. split; [done|].
  assert (Hperm : sort time_leb (file_events pm) ≡ₚ file_events pm)
    by apply sort_perm.
  split; [exact Hperm|]. split; [|split].
  - fold (file_events pm). rewrite Hperm. unfold file_events.
    induction (PrettyMidi.instruments pm) as [|inst insts IH]; [done|].
    cbn [flat_map]. by rewrite !length_app, length_map, IH.
  - apply sort_time_sorted.
  - fold (file_events pm). rewrite Hperm. unfold file_events.
    apply Forall_forall. intros e He.
    apply list_elem_of_In, in_flat_map in He as (inst & _ & He).
    apply in_map_iff in He as (n & <- & _). cbn.
    split; [done|apply map_pitch_to_lane_range].
Qed.

Lemma load_midi_notes_events_witness :
  load_midi_notes string Sample.drums_only "midi/Song_Name_drums.mid"
    = Ok (sort time_leb (file_events Sample.pm)) /\
  exists pm,
    Sample.drums_only "midi/Song_Name_drums.mid" = Some (PrettyMidi.Midi pm) /\
    sort time_leb (file_events Sample.pm) ≡ₚ file_events pm /\
    length (sort time_leb (file_events Sample.pm))
      = length (flat_map PrettyMidi.notes (PrettyMidi.instruments pm)) /\
    time_sorted (sort time_leb (file_events Sample.pm)) /\
    Forall (fun e => lane e = map_pitch_to_lane (pitch e) /\ 0 <= lane e <= 3)
      (sort time_leb (file_events Sample.pm)).
Proof.
  split; [reflexivity|].
  exact (load_midi_notes_events string Sample.drums_only
           "midi/Song_Name_drums.mid" _ eq_refl).
Defined.

(** X13.  The loader's sort is stable: events that start at the same time
    come out in the order of the file (instrument by instrument, note by
    note). *)
Theorem load_midi_notes_stable (Path : Type)
    (fs : Path -> option PrettyMidi.file) (path : Path)
    (pm : PrettyMidi.PrettyMIDI) (events : list NoteEvent) (t : Q) :
  fs path = Some (PrettyMidi.Midi pm) ->
  load_midi_notes Path fs path = Ok events ->
  filter (fun e => (time_ms e == t)%Q) events =
  filter (fun e => (time_ms e == t)%Q) (file_events pm).
Proof.
  intros Hfs. unfold load_midi_notes, PrettyMidi.open. rewrite Hfs. cbn.
  intros [= <-]. fold (file_events pm).
  pose (c := mkNoteEvent t 0 0 0).
  rewrite !(list_filter_iff (fun e => (time_ms e == t)%Q)
              (fun e => same_key time_leb c e = true))
    by (intros e; by rewrite time_same_key).
  apply sort_stable; [apply time_leb_total|apply time_leb_trans].
Qed.

Lemma load_midi_notes_stable_witness :
  Sample.drums_only "midi/Song_Name_drums.mid"
    = Some (PrettyMidi.Midi Sample.pm) /\
  load_midi_notes string Sample.drums_only "midi/Song_Name_drums.mid"
    = Ok (sort time_leb (file_events Sample.pm)) /\
  filter (fun e => (time_ms e == 90)%Q) (sort time_leb (file_events Sample.pm)) =
  filter (fun e => (time_ms e == 90)%Q) (file_events Sample.pm).
Proof.
  split; [reflexivity|]. split; [reflexivity|].
  exact (load_midi_notes_stable string Sample.drums_only
           "midi/Song_Name_drums.mid" Sample.pm _ 90 eq_refl eq_refl).
Defined.

(** ** The stem loop, entry by entry *)

Section BuildMore.

Variable Path : Type.
Variable joinpath : Path -> string -> Path.
Variable str : Path -> string.
Variable fs : Path -> option PrettyMidi.file.
Variable track_id song_name artist_name : string.
Variable bpm_arg : Q.
Variable midi_dir : Path.

Local Abbreviation path_of :=
  (midi_path Path joinpath song_name midi_dir).
Local Abbreviation present stem :=
  (path_exists Path fs (path_of stem) = true).
Local Abbreviation stem_step :=
  (build_stem Path joinpath str fs song_name bpm_arg midi_dir).
Local Abbreviation stem_loop :=
  (build_stems Path joinpath str fs song_name bpm_arg midi_dir).
Local Abbreviation build :=
  (build_chart_for_song Path joinpath str fs track_id song_name artist_name
     bpm_arg midi_dir).

Local Abbreviation entry_of :=
  (stem_entry_of Path joinpath str song_name bpm_arg midi_dir).

(** The three outcomes of one iteration. *)
Lemma build_stem_cases (stems : gmap string StemEntry) (stem : string) :
  match fs (path_of stem) with
  | None => stem_step stems stem = Ok stems
  | Some PrettyMidi.NotMidi => stem_step stems stem = Raise DecodeError
  | Some (PrettyMidi.Midi pm) =>
      if Qeq_bool bpm_arg 0
      then stem_step stems stem = Raise ZeroDivisionError
      else stem_step stems stem = Ok (<[stem := entry_of stem pm]> stems)
  end.
Proof.
  unfold build_stem, path_exists, load_midi_notes, PrettyMidi.open.
  destruct (fs (path_of stem)) as [[pm|]|]; [|done|done]. cbn.
  unfold truediv. destruct (Qeq_bool bpm_arg 0) eqn:E; [done|]. cbn.
  fold (file_events pm).
  rewrite quantize_nonzero_map; [done|].
  apply grid_nonzero. intros H. apply Qeq_bool_iff in H. congruence.
Qed.

Lemma build_stems_entries (names : list string)
    (stems stems' : gmap string StemEntry) (k : string) (entry : StemEntry) :
  stem_loop names stems = Ok stems' ->
  stems' !! k = Some entry ->
  stems !! k = Some entry \/
  exists pm, fs (path_of k) = Some (PrettyMidi.Midi pm) /\
             ~ (bpm_arg == 0)%Q /\ entry = entry_of k pm.
Proof.
  revert stems. induction names as [|stem rest IH]; intros stems.
  - intros [= <-]. by left.
  - cbn [build_stems]. pose proof (build_stem_cases stems stem) as Hcase.
    destruct (stem_step stems stem) as [stems1|] eqn:E; [|done]. cbn.
    intros Hrest Hk. destruct (IH _ Hrest Hk) as [H1|H1]; [|by right].
    destruct (fs (path_of stem)) as [[pm|]|] eqn:Hfs; [|done|by simplify_eq; left].
    destruct (Qeq_bool bpm_arg 0) eqn:Hz; [done|]. simplify_eq.
    destruct (decide (stem = k)) as [->|Hne].
    + rewrite lookup_insert_eq in H1. simplify_eq. right. exists pm.
      split; [done|]. split; [|done].
      intros H. apply Qeq_bool_iff in H. congruence.
    + rewrite lookup_insert_ne in H1 by done. by left.
Qed.

Lemma build_chart_entries (chart : BuildChart.Chart) (k : string)
    (entry : StemEntry) :
  build = Ok chart -> stems chart !! k = Some entry ->
  exists pm, fs (path_of k) = Some (PrettyMidi.Midi pm) /\
             ~ (bpm_arg == 0)%Q /\ entry = entry_of k pm.
Proof.
  intros Hbuild Hk.
  apply build_chart_stems in Hbuild as [Hloop _].
  destruct (build_stems_entries _ _ _ _ _ Hloop Hk) as [H|H]; [|done].
  by rewrite lookup_empty in H.
Qed.

(** The loop returns exactly when no present stem stops it. *)
Lemma build_stems_returns_iff (names : list string)
    (stems : gmap string StemEntry) :
  (exists stems', stem_loop names stems = Ok stems') <->
  (forall stem, stem ∈ names -> present stem ->
     (exists pm, fs (path_of stem) = Some (PrettyMidi.Midi pm)) /\
     ~ (bpm_arg == 0)%Q).
Proof.
  revert stems. induction names as [|stem rest IH]; intros stems.
  { split; [|by eexists]. intros _ stem H. by apply elem_of_nil in H. }
  cbn [build_stems]. pose proof (build_stem_cases stems stem) as Hcase.
  unfold path_exists in *.
  destruct (fs (path_of stem)) as [[pm|]|] eqn:Hfs.
  - destruct (Qeq_bool bpm_arg 0) eqn:Hz.
    + rewrite Hcase. split; [by intros [? ?]|]. intros H.
      destruct (H stem (list_elem_of_here _ _)) as [_ Hnz].
      { by rewrite Hfs. }
      apply Qeq_bool_iff in Hz. by destruct Hnz.
    + rewrite Hcase. cbn. rewrite IH. split.
      * intros H s [->|Hs]%elem_of_cons Hp; [|by apply H].
        split; [by eexists|]. intros Hq. apply Qeq_bool_iff in Hq. congruence.
      * intros H s Hs. by apply H, list_elem_of_further.
  - rewrite Hcase. split; [by intros [? ?]|]. intros H.
    destruct (H stem (list_elem_of_here _ _)) as [[pm Hpm] _].
    { by rewrite Hfs. }
    congruence.
  - rewrite Hcase. cbn. rewrite IH. split.
    + intros H s [->|Hs]%elem_of_cons Hp; [|by apply H].
      by rewrite Hfs in Hp.
    + intros H s Hs. by apply H, list_elem_of_further.
Qed.

End BuildMore.

(** ** Notes that differ in the writing of their times *)

Lemma lt_comp (a b g : Q) : (a == b)%Q -> lt a g = lt b g.
Proof.
  intros Hab. unfold lt. f_equal. by apply Qleb_comp.
Qed.

Lemma thin_loop_same_note (d : Difficulty) (g : Q)
    (notes notes' : list NoteEvent) (l1 l2 : gmap Z Q) :
  Forall2 same_note notes notes' ->
  (forall k, (default no_last_time (l1 !! k)
              == default no_last_time (l2 !! k))%Q) ->
  Forall2 same_note (thin_loop d g notes [] l1) (thin_loop d g notes' [] l2).
Proof.
  intros Hnotes. revert l1 l2.
  induction Hnotes as [|n n' rest rest' Hn _ IH]; intros l1 l2 Hlast.
  { constructor. }
  rewrite !thin_loop_cons.
  destruct Hn as (Ht & Hd & Hp & Hl).
  rewrite <- Hl.
  rewrite (lt_comp (time_ms n' - default no_last_time (l2 !! lane n))
                   (time_ms n - default no_last_time (l1 !! lane n)))
    by (rewrite Ht, (Hlast (lane n)); reflexivity).
  destruct (_ && _); [by apply IH|].
  constructor; [done|]. apply IH. intros k.
  destruct (decide (lane n = k)) as [<-|Hne].
  - by rewrite !lookup_insert_eq.
  - rewrite !lookup_insert_ne by done. apply Hlast.
Qed.

Lemma to_dict_same_note (notes notes' : list NoteEvent) :
  Forall2 same_note notes notes' -> map to_dict notes = map to_dict notes'.
Proof.
  induction 1 as [|n n' rest rest' (Ht & Hd & Hp & Hl) _ IH]; [done|].
  cbn [map]. f_equal; [|exact IH].
  unfold to_dict. by rewrite (round_comp _ _ Ht), Hd, Hp, Hl.
Qed.

Lemma stem_entry_same_note (file_name : string) (q q' : list NoteEvent) :
  Forall2 same_note q q' -> stem_entry file_name q = stem_entry file_name q'.
Proof.
  intros Hq. unfold stem_entry, thin_notes_for_difficulty.
  by rewrite !(to_dict_same_note _ _
                 (thin_loop_same_note _ _ q q' ∅ ∅ Hq (fun _ => Qeq_refl _))).
Qed.

Lemma time_sorted_lookup (l : list NoteEvent) (i j : nat) (a b : NoteEvent) :
  time_sorted l -> (i <= j)%nat -> l !! i = Some a -> l !! j = Some b ->
  (time_ms a <= time_ms b)%Q.
Proof.
  revert i j. induction l as [|x l IH]; intros i j Hl Hij Ha Hb; [done|].
  destruct Hl as [Hx Hl]. destruct i as [|i].
  - cbn in Ha. simplify_eq. destruct j as [|j].
    + cbn in Hb. simplify_eq. lra.
    + cbn in Hb. apply (proj1 (Forall_forall _ _) Hx).
      by apply list_elem_of_lookup_2 in Hb.
  - destruct j as [|j]; [lia|]. apply (IH i j); [done|lia|done|done].
Qed.

(** The JSON times of a time-sorted sequence ascend. *)
Lemma to_dict_time_order (l : list NoteEvent) (i j : nat) (a b : NoteDict) :
  time_sorted l -> (i <= j)%nat ->
  map to_dict l !! i = Some a -> map to_dict l !! j = Some b ->
  timeMs a <= timeMs b.
Proof.
  intros Hl Hij Ha Hb.
  change (map to_dict l) with (to_dict <$> l) in Ha, Hb.
  rewrite list_lookup_fmap in Ha, Hb.
  destruct (l !! i) as [x|] eqn:Hx; [|done].
  destruct (l !! j) as [y|] eqn:Hy; [|done].
  cbn in Ha, Hb. simplify_eq. cbn.
  apply round_mono. by apply (time_sorted_lookup l i j).
Qed.

Lemma replace_char_absent (a b : ascii) (s : string) :
  a <> b -> ~ In a (list_ascii_of_string (replace_char a b s)).
Proof.
  intros Hab. induction s as [|c s IH]; [by intros []|].
  cbn. intros [H|H]; [|done].
  destruct (Ascii.eqb_spec c a); congruence.
Qed.

Lemma replace_char_length (a b : ascii) (s : string) :
  String.length (replace_char a b s) = String.length s.
Proof. induction s as [|c s IH]; [done|]. cbn. by rewrite IH. Qed.

(** ** The document, stem by stem *)

Section Document.

Variable Path : Type.
Variable joinpath : Path -> string -> Path.
Variable str : Path -> string.
Variable fs : Path -> option PrettyMidi.file.
Variable track_id song_name artist_name : string.
Variable bpm_arg : Q.
Variable midi_dir : Path.

Local Abbreviation path_of :=
  (midi_path Path joinpath song_name midi_dir).
Local Abbreviation build :=
  (build_chart_for_song Path joinpath str fs track_id song_name artist_name
     bpm_arg midi_dir).

(** The quantised events every entry is computed from. *)
Lemma build_chart_entry_notes (chart : BuildChart.Chart) (stem : string)
    (entry : StemEntry) :
  build = Ok chart -> stems chart !! stem = Some entry ->
  exists pm quantized,
    fs (path_of stem) = Some (PrettyMidi.Midi pm) /\
    entry = stem_entry (str (path_of stem)) quantized /\
    time_sorted quantized /\
    length quantized
      = length (flat_map PrettyMidi.notes (PrettyMidi.instruments pm)) /\
    Forall (fun e => lane e = map_pitch_to_lane (pitch e)) quantized.
Proof.
  intros Hbuild Hentry.
  destruct (build_chart_entries _ _ _ _ _ _ _ _ _ _ _ _ Hbuild Hentry)
    as (pm & Hfs & Hnz & ->).
  exists pm, (map (quantized_note (60000 / bpm_arg / 4))
                  (sort time_leb (file_events pm))).
  split; [done|]. split; [done|]. split; [|split].
  - apply quantized_notes_time_sorted; [by apply grid_nonzero|].
    apply sort_time_sorted.
  - rewrite length_map, sort_perm. unfold file_events.
    induction (PrettyMidi.instruments pm) as [|inst insts IH]; [done|].
    cbn [flat_map]. by rewrite !length_app, length_map, IH.
  - apply Forall_map. rewrite sort_perm. unfold file_events.
    apply Forall_forall. intros e He.
    apply list_elem_of_In, in_flat_map in He as (inst & _ & He).
    by apply in_map_iff in He as (n & <- & _).
Qed.

End Document.

Lemma stem_entry_expert (file_name : string) (quantized : list NoteEvent) :
  expert_notes (difficulties (stem_entry file_name quantized))
  = map to_dict quantized.
Proof.
  cbn. unfold thin_notes_for_difficulty. by rewrite thin_loop_keeps_all.
Qed.

Lemma stem_entry_tier_sublist (file_name : string) (quantized : list NoteEvent)
    (l : list NoteDict) :
  l ∈ tiers (stem_entry file_name quantized) ->
  exists kept, kept `sublist_of` quantized /\ l = map to_dict kept.
Proof.
  unfold tiers. cbn [stem_entry difficulties easy_notes normal_notes expert_notes].
  rewrite !elem_of_cons, elem_of_nil.
  intros [->|[->|[->|[]]]]; eexists; (split; [|reflexivity]);
    unfold thin_notes_for_difficulty; apply thin_loop_sublist.
Qed.

(** X16.  In every document, the expert list of a stem has one note per
    note of the stem's MIDI file, and the easy and the normal list are
    sub-sequences of the expert list. *)
Theorem stem_tiers_within_expert (Path : Type)
    (joinpath : Path -> string -> Path)
    (str : Path -> string) (fs : Path -> option PrettyMidi.file)
    (track_id song_name artist_name : string) (bpm_arg : Q) (midi_dir : Path)
    (chart : BuildChart.Chart) (stem : string) (entry : StemEntry) :
  build_chart_for_song Path joinpath str fs track_id song_name artist_name
    bpm_arg midi_dir = Ok chart ->
  stems chart !! stem = Some entry ->
  (exists pm,
     fs (midi_path Path joinpath song_name midi_dir stem)
       = Some (PrettyMidi.Midi pm) /\
     length (expert_notes (difficulties entry))
       = length (flat_map PrettyMidi.notes (PrettyMidi.instruments pm))) /\
  easy_notes (difficulties entry)
    `sublist_of` expert_notes (difficulties entry) /\
  normal_notes (difficulties entry)
    `sublist_of` expert_notes (difficulties entry).
Proof.
  intros Hbuild Hentry.
  destruct (build_chart_entry_notes _ _ _ _ _ _ _ _ _ _ _ _ Hbuild Hentry)
    as (pm & q & Hfs & -> & _ & Hlen & _).
  rewrite stem_entry_expert. split.
  - exists pm. split; [done|]. by rewrite length_map.
  - cbn. unfold thin_notes_for_difficulty.
    split; apply (fmap_sublist to_dict), thin_loop_sublist.
Qed.

Lemma stem_tiers_within_expert_witness :
  let chart := Sample.chart 120 {[ "drums"%string := Sample.drums_entry ]} in
  Sample.build Sample.drums_only 120 = Ok chart /\
  BuildChart.stems chart !! "drums"%string = Some Sample.drums_entry /\
  easy_notes (difficulties Sample.drums_entry)
    `sublist_of` expert_notes (difficulties Sample.drums_entry).
Proof.
  split; [exact sample_build_120|]. split; [reflexivity|].
  exact (proj1 (proj2 (stem_tiers_within_expert string Sample.joinpath
           Sample.str Sample.drums_only "local:0:SongName" "Song Name" "vx9"
           120 "midi" _ "drums" Sample.drums_entry sample_build_120 eq_refl))).
Defined.

(** X17.  In every document, the notes of each difficulty of each stem are
    in ascending order of [timeMs]. *)
Theorem stem_notes_ascend (Path : Type) (joinpath : Path -> string -> Path)
    (str : Path -> string) (fs : Path -> option PrettyMidi.file)
    (track_id song_name artist_name : string) (bpm_arg : Q) (midi_dir : Path)
    (chart : BuildChart.Chart) (stem : string) (entry : StemEntry) :
  build_chart_for_song Path joinpath str fs track_id song_name artist_name
    bpm_arg midi_dir = Ok chart ->
  stems chart !! stem = Some entry ->
  Forall ascending (tiers entry).
Proof.
  intros Hbuild Hentry.
  destruct (build_chart_entry_notes _ _ _ _ _ _ _ _ _ _ _ _ Hbuild Hentry)
    as (pm & q & _ & -> & Hsorted & _ & _).
  apply Forall_forall. intros l Hl.
  apply stem_entry_tier_sublist in Hl as (kept & Hsub & ->).
  intros i j a b. apply to_dict_time_order.
  by apply (time_sorted_sublist kept q).
Qed.

Lemma stem_notes_ascend_witness :
  let chart := Sample.chart 120 {[ "drums"%string := Sample.drums_entry ]} in
  Sample.build Sample.drums_only 120 = Ok chart /\
  BuildChart.stems chart !! "drums"%string = Some Sample.drums_entry /\
  Forall ascending (tiers Sample.drums_entry).
Proof.
  split; [exact sample_build_120|]. split; [reflexivity|].
  exact (stem_notes_ascend string Sample.joinpath Sample.str
           Sample.drums_only "local:0:SongName" "Song Name" "vx9" 120 "midi"
           _ "drums" Sample.drums_entry sample_build_120 eq_refl).
Defined.

(** X18.  In every document, every note of every difficulty of every stem
    has the lane of its pitch under the bucket mapping, a lane between 0 and
    3; quantisation and thinning never move a note to another lane. *)
Theorem stem_notes_lanes (Path : Type) (joinpath : Path -> string -> Path)
    (str : Path -> string) (fs : Path -> option PrettyMidi.file)
    (track_id song_name artist_name : string) (bpm_arg : Q) (midi_dir : Path)
    (chart : BuildChart.Chart) (stem : string) (entry : StemEntry) :
  build_chart_for_song Path joinpath str fs track_id song_name artist_name
    bpm_arg midi_dir = Ok chart ->
  stems chart !! stem = Some entry ->
  Forall (Forall (fun n => nd_lane n = map_pitch_to_lane (nd_pitch n) /\
                           0 <= nd_lane n <= 3))
    (tiers entry).
Proof.
  intros Hbuild Hentry.
  destruct (build_chart_entry_notes _ _ _ _ _ _ _ _ _ _ _ _ Hbuild Hentry)
    as (pm & q & _ & -> & _ & _ & Hlanes).
  apply Forall_forall. intros l Hl.
  apply stem_entry_tier_sublist in Hl as (kept & Hsub & ->).
  apply Forall_map. apply (Forall_of_sublist _ _ _ Hsub).
  eapply Forall_impl; [exact Hlanes|]. intros n Hn. cbn.
  split; [done|]. rewrite Hn. apply map_pitch_to_lane_range.
Qed.

Lemma stem_notes_lanes_witness :
  let chart := Sample.chart 120 {[ "drums"%string := Sample.drums_entry ]} in
  Sample.build Sample.drums_only 120 = Ok chart /\
  BuildChart.stems chart !! "drums"%string = Some Sample.drums_entry /\
  Forall (Forall (fun n => nd_lane n = map_pitch_to_lane (nd_pitch n) /\
                           0 <= nd_lane n <= 3))
    (tiers Sample.drums_entry).
Proof.
  split; [exact sample_build_120|]. split; [reflexivity|].
  exact (stem_notes_lanes string Sample.joinpath Sample.str
           Sample.drums_only "local:0:SongName" "Song Name" "vx9" 120 "midi"
           _ "drums" Sample.drums_entry sample_build_120 eq_refl).
Defined.

(** X19.  The slug used in the stem file names is the song name with every
    space replaced by an underscore and every other character left as it
    is, in place: it has no space and the length of the song name, and a
    song name without spaces is its own slug. *)
Theorem song_slug_spaces_to_underscores (song_name : string) :
  list_ascii_of_string (song_slug song_name)
    = map (fun c => if Ascii.eqb c " " then "_"%char else c)
          (list_ascii_of_string song_name) /\
  ~ In " "%char (list_ascii_of_string (song_slug song_name)) /\
  String.length (song_slug song_name) = String.length song_name.
Proof.
  unfold song_slug. split; [|split; [by apply replace_char_absent|]].
  { induction song_name as [|c s IH]; [done|]. cbn. by rewrite IH. }
  apply replace_char_length.
Qed.

(** X20.  The [midiFile] of a stem entry is the stem's path with forward
    slashes: it is [str(path)] with every backslash replaced, and contains
    no backslash. *)
Theorem stem_file_name_slashes (Path : Type) (joinpath : Path -> string -> Path)
    (str : Path -> string) (fs : Path -> option PrettyMidi.file)
    (track_id song_name artist_name : string) (bpm_arg : Q) (midi_dir : Path)
    (chart : BuildChart.Chart) (stem : string) (entry : StemEntry) :
  build_chart_for_song Path joinpath str fs track_id song_name artist_name
    bpm_arg midi_dir = Ok chart ->
  stems chart !! stem = Some entry ->
  midiFile entry
    = replace_char backslash "/"
        (str (midi_path Path joinpath song_name midi_dir stem)) /\
  ~ In backslash (list_ascii_of_string (midiFile entry)) /\
  String.length (midiFile entry)
    = String.length (str (midi_path Path joinpath song_name midi_dir stem)).
Proof.
  intros Hbuild Hentry.
  destruct (build_chart_entry_notes _ _ _ _ _ _ _ _ _ _ _ _ Hbuild Hentry)
    as (pm & q & _ & -> & _). cbn [stem_entry midiFile].
  split; [done|]. split; [by apply replace_char_absent|].
  apply replace_char_length.
Qed.

Lemma stem_file_name_slashes_witness :
  let chart := Sample.chart 120 {[ "drums"%string := Sample.drums_entry ]} in
  Sample.build Sample.drums_only 120 = Ok chart /\
  BuildChart.stems chart !! "drums"%string = Some Sample.drums_entry /\
  ~ In backslash (list_ascii_of_string (midiFile Sample.drums_entry)).
Proof.
  split; [exact sample_build_120|]. split; [reflexivity|].
  exact (proj1 (proj2 (stem_file_name_slashes string Sample.joinpath
           Sample.str Sample.drums_only "local:0:SongName" "Song Name" "vx9"
           120 "midi" _ "drums" Sample.drums_entry sample_build_120 eq_refl))).
Defined.

(** X21.  The sign of the tempo does not reach the notes: if the build
    returns a document for [bpm], it returns one for [- bpm] as well, with
    the same stems, the same notes at every difficulty, and the same other
    entries except [bpm] itself. *)
Theorem negated_bpm_same_stems (Path : Type) (joinpath : Path -> string -> Path)
    (str : Path -> string) (fs : Path -> option PrettyMidi.file)
    (track_id song_name artist_name : string) (bpm_arg : Q) (midi_dir : Path)
    (chart : BuildChart.Chart) :
  build_chart_for_song Path joinpath str fs track_id song_name artist_name
    bpm_arg midi_dir = Ok chart ->
  exists chart',
    build_chart_for_song Path joinpath str fs track_id song_name artist_name
      (- bpm_arg) midi_dir = Ok chart' /\
    stems chart' = stems chart /\
    trackId chart' = trackId chart /\ songName chart' = songName chart /\
    BuildChart.artist chart' = BuildChart.artist chart /\
    audioOffsetMs chart' = audioOffsetMs chart /\
    BuildChart.bpm chart' = (- bpm_arg)%Q.
Proof.
  intros Hbuild.
  assert (Hret : exists chart',
    build_chart_for_song Path joinpath str fs track_id song_name artist_name
      (- bpm_arg) midi_dir = Ok chart').
  { unfold build_chart_for_song in *.
    destruct (build_stems Path joinpath str fs song_name bpm_arg midi_dir
                stem_names ∅) as [st|] eqn:Hloop; [|done].
    assert (Hneg : exists st', build_stems Path joinpath str fs song_name
                     (- bpm_arg) midi_dir stem_names ∅ = Ok st').
    { apply build_stems_returns_iff. intros s Hs Hp.
      destruct (proj1 (build_stems_returns_iff Path joinpath str fs song_name
                  bpm_arg midi_dir stem_names ∅) (ex_intro _ st Hloop) s Hs Hp)
        as [Hpm Hnz].
      split; [done|]. intros H. apply Hnz. lra. }
    destruct Hneg as [st' ->]. by eexists. }
  destruct Hret as [chart' Hbuild']. exists chart'. split; [done|].
  pose proof (build_chart_stems _ _ _ _ _ _ _ _ _ _ Hbuild) as [Hloop Hoff].
  pose proof (build_chart_stems _ _ _ _ _ _ _ _ _ _ Hbuild') as [Hloop' Hoff'].
  split.
  - apply map_eq. intros k.
    destruct (stems chart' !! k) as [entry'|] eqn:Hk';
      destruct (stems chart !! k) as [entry|] eqn:Hk.
    + destruct (build_chart_entries _ _ _ _ _ _ _ _ _ _ _ _ Hbuild Hk)
        as (pm & Hfs & Hnz & ->).
      destruct (build_chart_entries _ _ _ _ _ _ _ _ _ _ _ _ Hbuild' Hk')
        as (pm' & Hfs' & _ & ->).
      simplify_eq. f_equal. unfold stem_entry_of.
      apply stem_entry_same_note.
      induction (sort time_leb (file_events pm)) as [|n l IH];
        constructor; [|exact IH].
      split; [|done]. symmetry.
      apply (quantized_note_opp (60000 / bpm_arg / 4)).
      * by apply grid_nonzero.
      * field. lra.
    + assert (Hsome : is_Some (stems chart !! k)).
      { rewrite (build_stems_keys _ _ _ _ _ _ _ _ _ _ _ Hloop).
        apply (build_stems_keys _ _ _ _ _ _ _ _ _ _ _ Hloop'). by eexists. }
      rewrite Hk in Hsome. by destruct Hsome.
    + assert (Hsome : is_Some (stems chart' !! k)).
      { rewrite (build_stems_keys _ _ _ _ _ _ _ _ _ _ _ Hloop').
        apply (build_stems_keys _ _ _ _ _ _ _ _ _ _ _ Hloop). by eexists. }
      rewrite Hk' in Hsome. by destruct Hsome.
    + done.
  - unfold build_chart_for_song in Hbuild, Hbuild'.
    destruct (build_stems Path joinpath str fs song_name bpm_arg midi_dir
                stem_names ∅); [|done].
    destruct (build_stems Path joinpath str fs song_name (- bpm_arg) midi_dir
                stem_names ∅); [|done].
    clear Hloop Hloop' Hoff Hoff'. cbn in Hbuild, Hbuild'.
    injection Hbuild as <-. injection Hbuild' as <-. done.
Qed.

Lemma negated_bpm_same_stems_witness :
  let chart := Sample.chart 120 {[ "drums"%string := Sample.drums_entry ]} in
  Sample.build Sample.drums_only 120 = Ok chart /\
  exists chart',
    Sample.build Sample.drums_only (- 120) = Ok chart' /\
    BuildChart.stems chart' = BuildChart.stems chart.
Proof.
  split; [exact sample_build_120|].
  destruct (negated_bpm_same_stems string Sample.joinpath Sample.str
              Sample.drums_only "local:0:SongName" "Song Name" "vx9" 120 "midi"
              _ sample_build_120) as (chart' & H1 & H2 & _).
  by exists chart'.
Defined.

(** ** The single-stream chart *)

Lemma timeMs_leb_total (a b : gmap string Transcribe.value) :
  Transcribe.timeMs_leb a b = true \/ Transcribe.timeMs_leb b a = true.
Proof. unfold Transcribe.timeMs_leb. lia. Qed.

Lemma timeMs_leb_trans (a b c : gmap string Transcribe.value) :
  Transcribe.timeMs_leb a b = true -> Transcribe.timeMs_leb b c = true ->
  Transcribe.timeMs_leb a c = true.
Proof. unfold Transcribe.timeMs_leb. lia. Qed.

Lemma sorted_by_lookup {A : Type} (leb : A -> A -> bool) (l : list A)
    (i j : nat) (a b : A) :
  (forall x, leb x x = true) ->
  sorted_by leb l -> (i <= j)%nat -> l !! i = Some a -> l !! j = Some b ->
  leb a b = true.
Proof.
  intros Hrefl. revert i j.
  induction l as [|x l IH]; intros i j Hl Hij Ha Hb; [done|].
  destruct Hl as [Hx Hl]. destruct i as [|i].
  - cbn in Ha. simplify_eq. destruct j as [|j].
    + cbn in Hb. by simplify_eq.
    + cbn in Hb. apply (proj1 (Forall_forall _ _) Hx).
      by apply list_elem_of_lookup_2 in Hb.
  - destruct j as [|j]; [lia|]. apply (IH i j); [done|lia|done|done].
Qed.

Lemma note_dict_timeMs (lane startMs endMs : Z) :
  Transcribe.note_dict lane startMs endMs !! "timeMs"%string
  = Some (Transcribe.Int startMs).
Proof. unfold Transcribe.note_dict. by destruct (350 <=? _). Qed.

Lemma note_dict_lane (lane startMs endMs : Z) :
  Transcribe.note_dict lane startMs endMs !! "lane"%string
  = Some (Transcribe.Int lane).
Proof. unfold Transcribe.note_dict. by destruct (350 <=? _). Qed.

(** The offset does not decide whether a time converts. *)
Lemma start_ms_offset (n : PrettyMidi.Note) (offset_ms startMs0 : Z) :
  Transcribe.start_ms n 0 = Ok startMs0 ->
  Transcribe.start_ms n offset_ms = Ok (startMs0 + offset_ms).
Proof.
  rewrite !start_ms_Ok. intros (ms & H & ->). exists ms. split; [done|lia].
Qed.

Lemma end_ms_offset (n : PrettyMidi.Note) (offset_ms endMs0 : Z) :
  Transcribe.end_ms n 0 = Ok endMs0 ->
  Transcribe.end_ms n offset_ms = Ok (endMs0 + offset_ms).
Proof.
  rewrite !end_ms_Ok. intros (ms & H & ->). exists ms. split; [done|lia].
Qed.

Lemma sample_single_stream_chart :
  exists chart,
    Transcribe.build_chart_from_midi Sample.pm "local:0:SongName" "song"
      "STEMSTATION" "easy" 0 = Ok chart.
Proof.
  destruct (Transcribe.build_chart_from_midi Sample.pm "local:0:SongName"
              "song" "STEMSTATION" "easy" 0) as [chart|e] eqn:E.
  - by exists chart.
  - vm_compute in E. discriminate E.
Defined.

(** X22.  In every chart the single-stream builder returns, the notes are in
    ascending order of their [timeMs] entries, and there is one per note of
    the MIDI data. *)
Theorem chart_notes_ascend (pm : PrettyMidi.PrettyMIDI)
    (track_id title artist difficulty : string) (offset_ms : Z)
    (chart : Transcribe.Chart) :
  Transcribe.build_chart_from_midi pm track_id title artist difficulty
    offset_ms = Ok chart ->
  length (Transcribe.notes chart)
    = length (flat_map PrettyMidi.notes (PrettyMidi.instruments pm)) /\
  forall (i j : nat) (d d' : gmap string Transcribe.value) (t t' : Z),
    (i <= j)%nat ->
    Transcribe.notes chart !! i = Some d ->
    Transcribe.notes chart !! j = Some d' ->
    d !! "timeMs"%string = Some (Transcribe.Int t) ->
    d' !! "timeMs"%string = Some (Transcribe.Int t') ->
    t <= t'.
Proof.
  intros Hbuild.
  apply build_chart_from_midi_Ok in Hbuild as (unsorted & Hu & ->). split.
  - rewrite sort_perm. apply chart_notes_Ok in Hu.
    symmetry. exact (Forall2_length _ _ _ Hu).
  - intros i j d d' t t' Hij Hd Hd' Ht Ht'.
    assert (Hleb : Transcribe.timeMs_leb d d' = true).
    { apply (sorted_by_lookup Transcribe.timeMs_leb
               (sort Transcribe.timeMs_leb unsorted) i j);
        [|apply sort_sorted|done|done|done].
      - intros x. unfold Transcribe.timeMs_leb. lia.
      - apply timeMs_leb_total.
      - apply timeMs_leb_trans. }
    unfold Transcribe.timeMs_leb, Transcribe.timeMs_key in Hleb.
    rewrite Ht, Ht' in Hleb. lia.
Qed.

Lemma chart_notes_ascend_witness :
  exists chart,
    Transcribe.build_chart_from_midi Sample.pm "local:0:SongName" "song"
      "STEMSTATION" "easy" 0 = Ok chart /\
    length (Transcribe.notes chart)
      = length (flat_map PrettyMidi.notes (PrettyMidi.instruments Sample.pm)).
Proof.
  destruct sample_single_stream_chart as [chart E].
  exists chart. split; [exact E|].
  exact (proj1 (chart_notes_ascend Sample.pm _ _ _ _ 0 chart E)).
Defined.

(** X23.  The sort of the single-stream chart is stable: in every chart the
    builder returns, notes with the same [timeMs] keep the order of the MIDI
    data (instrument by instrument, note by note). *)
Theorem chart_notes_stable (pm : PrettyMidi.PrettyMIDI)
    (track_id title artist difficulty : string) (offset_ms : Z)
    (chart : Transcribe.Chart) (unsorted : list (gmap string Transcribe.value))
    (t : Z) :
  Transcribe.build_chart_from_midi pm track_id title artist difficulty
    offset_ms = Ok chart ->
  Transcribe.unsorted_notes pm offset_ms = Ok unsorted ->
  filter (fun d => Transcribe.timeMs_key d = t) (Transcribe.notes chart) =
  filter (fun d => Transcribe.timeMs_key d = t) unsorted.
Proof.
  intros Hbuild Hu.
  apply build_chart_from_midi_Ok in Hbuild as (unsorted' & Hu' & ->).
  rewrite Hu in Hu'. injection Hu' as <-.
  pose (c := ({[ "timeMs"%string := Transcribe.Int t ]}
              : gmap string Transcribe.value)).
  assert (Hkey : forall d, Transcribe.timeMs_key d = t <->
                           same_key Transcribe.timeMs_leb c d = true).
  { intros d. unfold same_key, Transcribe.timeMs_leb.
    replace (Transcribe.timeMs_key c) with t by done. lia. }
  rewrite !(list_filter_iff _ _ _ Hkey).
  apply sort_stable; [apply timeMs_leb_total|apply timeMs_leb_trans].
Qed.

Lemma chart_notes_stable_witness :
  exists chart unsorted,
    Transcribe.build_chart_from_midi Sample.pm "local:0:SongName" "song"
      "STEMSTATION" "easy" 0 = Ok chart /\
    Transcribe.unsorted_notes Sample.pm 0 = Ok unsorted /\
    filter (fun d => Transcribe.timeMs_key d = 90) (Transcribe.notes chart) =
    filter (fun d => Transcribe.timeMs_key d = 90) unsorted.
Proof.
  destruct sample_single_stream_chart as [chart E].
  destruct (build_chart_from_midi_Ok _ _ _ _ _ _ _ E) as (unsorted & Hu & _).
  exists chart, unsorted. split; [exact E|]. split; [exact Hu|].
  exact (chart_notes_stable Sample.pm _ _ _ _ 0 chart unsorted 90 E Hu).
Defined.

(** X24.  The offset only shifts a note: a note that gets a dictionary at
    offset 0 gets one at every offset, negative ones included; [timeMs] and
    [endTimeMs] are the values at offset 0 plus the offset (nothing is
    clamped at zero), and the type and the lane are those at offset 0. *)
Theorem chart_note_offset_shift (n : PrettyMidi.Note) (offset_ms : Z)
    (d0 : gmap string Transcribe.value) :
  Transcribe.chart_note n 0 = Ok d0 ->
  exists d,
    Transcribe.chart_note n offset_ms = Ok d /\
    d !! "type"%string = d0 !! "type"%string /\
    d !! "lane"%string = d0 !! "lane"%string /\
    (forall t, d0 !! "timeMs"%string = Some (Transcribe.Int t) ->
               d !! "timeMs"%string = Some (Transcribe.Int (t + offset_ms))) /\
    (forall e, d0 !! "endTimeMs"%string = Some (Transcribe.Int e) ->
               d !! "endTimeMs"%string = Some (Transcribe.Int (e + offset_ms))) /\
    (d0 !! "endTimeMs"%string = None -> d !! "endTimeMs"%string = None).
Proof.
  intros H0. apply chart_note_Ok in H0 as (s & e & Hs & He & ->).
  eexists. split.
  { apply chart_note_Ok. exists (s + offset_ms), (e + offset_ms).
    split; [by apply start_ms_offset|]. split; [by apply end_ms_offset|done]. }
  rewrite !note_dict_lane, !note_dict_timeMs.
  destruct (Z.le_gt_cases 350 (e - s)) as [H|H].
  - rewrite (note_dict_hold _ s e) by done.
    rewrite (note_dict_hold _ (s + offset_ms) (e + offset_ms)) by lia.
    split; [done|]. split; [done|]. split; [|split].
    + by intros t [= <-].
    + intros e' He0.
      change (Some (Transcribe.Int e) = Some (Transcribe.Int e')) in He0.
      by simplify_eq.
    + intros Hnone. discriminate Hnone.
  - rewrite (note_dict_tap _ s e) by done.
    rewrite (note_dict_tap _ (s + offset_ms) (e + offset_ms)) by lia.
    split; [done|]. split; [done|]. split; [|split].
    + by intros t [= <-].
    + intros e' He0. discriminate He0.
    + done.
Qed.

Lemma chart_note_offset_shift_witness :
  Transcribe.chart_note Sample.note_349_5 0
    = Ok (Transcribe.note_dict 2 0 350) /\
  exists d,
    Transcribe.chart_note Sample.note_349_5 (-1000) = Ok d /\
    d !! "type"%string = Transcribe.note_dict 2 0 350 !! "type"%string.
Proof.
  assert (H0 : Transcribe.chart_note Sample.note_349_5 0
               = Ok (Transcribe.note_dict 2 0 350))
    by (vm_compute; reflexivity).
  split; [exact H0|].
  destruct (chart_note_offset_shift Sample.note_349_5 (-1000) _ H0)
    as (d & Hd & Htype & _).
  by exists d.
Defined.

(** X25.  Every note dictionary has the entries [timeMs], [lane] and
    [type], a hold has [endTimeMs] in addition and nothing else; the lane is
    that of the pitch under the linear mapping, between 0 and 3. *)
Theorem chart_note_keys (n : PrettyMidi.Note) (offset_ms : Z)
    (d : gmap string Transcribe.value) :
  Transcribe.chart_note n offset_ms = Ok d ->
  (dom d = {[ "timeMs"; "lane"; "type" ]}%string \/
   dom d = {[ "timeMs"; "lane"; "type"; "endTimeMs" ]}%string) /\
  (is_Some (d !! "endTimeMs"%string) <->
   d !! "type"%string = Some (Transcribe.Str "hold")) /\
  exists l : Z, d !! "lane"%string = Some (Transcribe.Int l) /\
                l = lane_for_midi (PrettyMidi.pitch n) /\ 0 <= l <= 3.
Proof.
  intros Hd. apply chart_note_Ok in Hd as (s & e & _ & _ & ->).
  split; [|split].
  - unfold Transcribe.note_dict. destruct (350 <=? _); [right|left];
      apply set_eq; intros k;
      rewrite elem_of_dom, !elem_of_union, !elem_of_singleton;
      cbn [list_to_map foldr uncurry];
      rewrite !lookup_insert_is_Some, lookup_empty;
      split; [naive_solver| |naive_solver|].
    + intros [[[->| ->]| ->]| ->]; [| | |]; cbn;
        repeat (first [by left|right; split; [done|]]).
    + intros [[->| ->]| ->]; [| |]; cbn;
        repeat (first [by left|right; split; [done|]]).
  - unfold Transcribe.note_dict. destruct (350 <=? _).
    + split; [done|]. intros _. by eexists.
    + split; [by intros [? ?]|]. intros H. discriminate H.
  - exists (lane_for_midi (PrettyMidi.pitch n)).
    split; [apply note_dict_lane|]. split; [done|apply lane_for_midi_range].
Qed.

Lemma chart_note_keys_witness :
  Transcribe.chart_note Sample.note_349_5 0
    = Ok (Transcribe.note_dict 2 0 350) /\
  (is_Some (Transcribe.note_dict 2 0 350 !! "endTimeMs"%string) <->
   Transcribe.note_dict 2 0 350 !! "type"%string
   = Some (Transcribe.Str "hold")).
Proof.
  assert (H0 : Transcribe.chart_note Sample.note_349_5 0
               = Ok (Transcribe.note_dict 2 0 350))
    by (vm_compute; reflexivity).
  split; [exact H0|].
  exact (proj1 (proj2 (chart_note_keys Sample.note_349_5 0 _ H0))).
Defined.

(** ** Identifier sanitising *)

Section Sanitize.

Import Transcribe.

Variable isalnum : N -> bool.

Lemma keeps_underscore : keeps isalnum underscore = true.
Proof. unfold keeps. by rewrite N.eqb_refl, !orb_true_r. Qed.

Lemma sanitize_char_kept (ch : N) :
  keeps isalnum (if keeps isalnum ch then ch else underscore) = true.
Proof. destruct (keeps isalnum ch) eqn:E; [done|apply keeps_underscore]. Qed.

End Sanitize.

(** X26.  A sanitised identifier has the length of the identifier and
    consists of alphanumeric characters, hyphens and underscores only;
    every other character has become an underscore, and the characters that
    were already of these kinds are unchanged. *)
Theorem sanitize_id_allowed (isalnum : N -> bool) (track_id : list N) :
  length (Transcribe.sanitize_id isalnum track_id) = length track_id /\
  Forall (fun ch => Transcribe.keeps isalnum ch = true)
    (Transcribe.sanitize_id isalnum track_id) /\
  forall (i : nat) (ch : N), track_id !! i = Some ch ->
    Transcribe.sanitize_id isalnum track_id !! i
    = Some (if Transcribe.keeps isalnum ch then ch else Transcribe.underscore).
Proof.
  unfold Transcribe.sanitize_id. split; [apply length_map|]. split.
  - apply Forall_map, Forall_forall. intros ch _. apply sanitize_char_kept.
  - intros i ch Hi.
    change (map ?f track_id) with (f <$> track_id).
    by rewrite list_lookup_fmap, Hi.
Qed.

(** X27.  Sanitising is idempotent, leaves exactly the identifiers made of
    alphanumeric characters, hyphens and underscores unchanged, and works
    character by character: the sanitised concatenation is the concatenation
    of the sanitised parts. *)
Theorem sanitize_id_idempotent (isalnum : N -> bool) (a b : list N) :
  Transcribe.sanitize_id isalnum (Transcribe.sanitize_id isalnum a)
    = Transcribe.sanitize_id isalnum a /\
  (Transcribe.sanitize_id isalnum a = a <->
   Forall (fun ch => Transcribe.keeps isalnum ch = true) a) /\
  Transcribe.sanitize_id isalnum (a ++ b)
    = Transcribe.sanitize_id isalnum a ++ Transcribe.sanitize_id isalnum b.
Proof.
  unfold Transcribe.sanitize_id. split; [|split].
  - rewrite map_map. apply map_ext. intros ch.
    by rewrite sanitize_char_kept.
  - induction a as [|ch a IH]; [by split|].
    cbn [map]. rewrite Forall_cons, <- IH. split.
    + intros [= Hch Ha]. split; [|done].
      pose proof (sanitize_char_kept isalnum ch) as Hk.
      by rewrite Hch in Hk.
    + intros [Hch Ha]. by rewrite Hch, Ha.
  - apply map_app.
Qed.

(** ** The two lane mappings side by side *)

(** X28.  The bucket mapping and the linear mapping give the same lane for
    every pitch except 48 and 49, which the bucket mapping puts on lane 0
    and the linear mapping on lane 1. *)
Theorem lane_mappings_differ_at_48_49 (p : Z) :
  (map_pitch_to_lane p = lane_for_midi p <-> p <> 48 /\ p <> 49) /\
  (p = 48 \/ p = 49 -> map_pitch_to_lane p = 0 /\ lane_for_midi p = 1).
Proof.
  unfold map_pitch_to_lane, lane_for_midi.
  pose proof (Z.div_mod (p - 36) 12 ltac:(lia)) as Hq.
  pose proof (Z.mod_pos_bound (p - 36) 12 ltac:(lia)) as Hr.
  destruct (Z.ltb_spec p 50), (Z.ltb_spec p 60), (Z.ltb_spec p 72); lia.
Qed.

(** ** The decision for one note *)

Lemma ieee_thin_loop_snoc (d : Difficulty) (g : float)
    (pre : list IEEE.NoteEvent) (n : IEEE.NoteEvent)
    (last_times : gmap Z float) :
  IEEE.thin_loop d g (pre ++ [n]) [] last_times =
  if (IEEE.time_ms n
      - IEEE.last_kept_time
          (default IEEE.no_last_time (last_times !! IEEE.lane n))
          (IEEE.lane n) (IEEE.thin_loop d g pre [] last_times)
      <? g)%float
     && drops_on_violation d
  then IEEE.thin_loop d g pre [] last_times
  else IEEE.thin_loop d g pre [] last_times ++ [n].
Proof.
  revert last_times. induction pre as [|m pre IH]; intros last_times.
  - cbn [app]. rewrite ieee_thin_loop_cons. unfold IEEE.last_kept_time. cbn.
    by destruct (_ && _).
  - cbn [app]. rewrite !ieee_thin_loop_cons.
    destruct ((IEEE.time_ms m - _ <? g)%float && _) eqn:Em; [apply IH|].
    rewrite IH.
    assert (Hlast :
      IEEE.last_kept_time
        (default IEEE.no_last_time
           (<[IEEE.lane m := IEEE.time_ms m]> last_times !! IEEE.lane n))
        (IEEE.lane n)
        (IEEE.thin_loop d g pre [] (<[IEEE.lane m := IEEE.time_ms m]> last_times)) =
      IEEE.last_kept_time
        (default IEEE.no_last_time (last_times !! IEEE.lane n)) (IEEE.lane n)
        (m :: IEEE.thin_loop d g pre []
                (<[IEEE.lane m := IEEE.time_ms m]> last_times))).
    { unfold IEEE.last_kept_time, IEEE.on_lane.
      destruct (decide (IEEE.lane m = IEEE.lane n)) as [Heq|Hne].
      - rewrite (filter_cons_True _ m) by done.
        rewrite last_cons, Heq, lookup_insert_eq.
        destruct (last (filter _ _)); reflexivity.
      - rewrite (filter_cons_False _ m) by done.
        by rewrite lookup_insert_ne. }
    rewrite Hlast.
    destruct ((IEEE.time_ms n - _ <? g)%float && drops_on_violation d);
      reflexivity.
Qed.

(** X29.  How one note is decided at the easy and normal tiers: a note that
    follows the notes [pre] is compared with the last note kept so far on
    its lane (with -1e9 when none was kept).  It is dropped exactly when the
    double nearest to the difference of the two times is below the minimum
    gap, and otherwise it is appended; the notes kept from [pre] are not
    revised either way. *)
Theorem thin_decides_by_last_kept (pre : list IEEE.NoteEvent)
    (n : IEEE.NoteEvent) (d : Difficulty)
    (sp_easy sp_normal sp_expert : float) :
  d <> expert ->
  let kept := IEEE.thin_notes_for_difficulty pre d sp_easy sp_normal sp_expert in
  let gap := IEEE.min_gap_of d sp_easy sp_normal sp_expert in
  let last_time := IEEE.last_kept_time IEEE.no_last_time (IEEE.lane n) kept in
  IEEE.thin_notes_for_difficulty (pre ++ [n]) d sp_easy sp_normal sp_expert
  = if (IEEE.time_ms n - last_time <? gap)%float then kept else kept ++ [n].
Proof.
  intros Hd kept gap last_time. subst kept gap last_time.
  unfold IEEE.thin_notes_for_difficulty.
  rewrite ieee_thin_loop_snoc, lookup_empty, (drops_on_violation_true d Hd),
    andb_true_r.
  reflexivity.
Qed.

(** After the sample, a note at 700 ms on lane 0 comes 100 ms after the last
    kept note of the lane and is dropped. *)
Lemma thin_decides_by_last_kept_witness :
  let kept := IEEE.thin_notes_for_difficulty Sample.events64 easy 260 160 80 in
  easy <> expert /\
  IEEE.last_kept_time IEEE.no_last_time 0 kept = 600%float /\
  IEEE.thin_notes_for_difficulty
    (Sample.events64 ++ [IEEE.mkNoteEvent 700 10 40 0]) easy 260 160 80
  = (if (700 - IEEE.last_kept_time IEEE.no_last_time 0 kept <? 260)%float
     then kept else kept ++ [IEEE.mkNoteEvent 700 10 40 0]) /\
  IEEE.thin_notes_for_difficulty
    (Sample.events64 ++ [IEEE.mkNoteEvent 700 10 40 0]) easy 260 160 80
  = kept.
Proof.
  split; [discriminate|]. split; [vm_compute; reflexivity|].
  split; [|vm_compute; reflexivity].
  apply (thin_decides_by_last_kept Sample.events64
           (IEEE.mkNoteEvent 700 10 40 0) easy 260 160 80).
  discriminate.
Defined.

(** After the note at 2^-50 ms a note at 260 ms on the same lane is kept;
    after the sample, a note on lane 1 is the first of its lane and is
    kept. *)
Example thin_decides_close_pair :
  IEEE.thin_notes_for_difficulty
    ([IEEE.mkNoteEvent 0x1p-50 10 40 0] ++ [IEEE.mkNoteEvent 260 10 40 0])
    easy 260 160 80
  = [IEEE.mkNoteEvent 0x1p-50 10 40 0; IEEE.mkNoteEvent 260 10 40 0] /\
  IEEE.thin_notes_for_difficulty
    (Sample.events64 ++ [IEEE.mkNoteEvent 700 10 55 1]) easy 260 160 80
  = IEEE.thin_notes_for_difficulty Sample.events64 easy 260 160 80
    ++ [IEEE.mkNoteEvent 700 10 55 1].
Proof. split; vm_compute; reflexivity. Qed.

(** X30.  The JSON note is the event rounded to whole milliseconds:
    [timeMs] and [durationMs] are within half a millisecond of [time_ms] and
    [duration_ms], whole-number values are written unchanged, and the pitch
    and the lane are copied. *)
Theorem to_dict_nearest_ms (n : NoteEvent) :
  (- (1 # 2) <= inject_Z (timeMs (to_dict n)) - time_ms n <= 1 # 2)%Q /\
  (- (1 # 2) <= inject_Z (durationMs (to_dict n)) - duration_ms n <= 1 # 2)%Q /\
  (forall k : Z, (time_ms n == inject_Z k)%Q -> timeMs (to_dict n) = k) /\
  (forall k : Z, (duration_ms n == inject_Z k)%Q -> durationMs (to_dict n) = k) /\
  nd_pitch (to_dict n) = pitch n /\ nd_lane (to_dict n) = lane n.
Proof.
  cbn [to_dict timeMs durationMs nd_pitch nd_lane].
  split; [apply round_half_bound|]. split; [apply round_half_bound|].
  split; [|split; [|done]];
    intros k Hk; by rewrite (round_comp _ _ Hk), round_inject_Z.
Qed.
